(** * Ad-hoc seed generators of the Iris bootstrapper

    A shallow embedding of [proto/bootstrap/scan.go] (the linear address
    scanner) and [proto/bootstrap/probe.go] (the random address prober),
    together with the two functions of Go's [net] package they call
    ([IPMask.Size] and [IP.Mask]).

    Conventions.
    - A Go [byte] is a [Byte.byte]; a byte slice is a [list byte].
    - A Go [int] is a 64-bit two's complement integer (as on amd64 and
      arm64), held in [Z].  A
      slice has far fewer than [2^48] elements, so the operations whose
      result is bounded by a small multiple of the length of a slice (the
      bit size of a mask, the host bits, an index, the counter and the
      sum of the loop over the host bits) are exact.  Every other
      operation of the source is followed by [wrap64].
    - A goroutine is a function from the decisions of its environment to
      the trace of channel events it performs and to the place where it
      ends up.  The sink, the quit channel and the reply channel are the
      events of the trace.  Loops that may spin without communicating
      take fuel. *)

From Stdlib Require Import ZArith List Lia Bool Permutation.
From coqutil Require Import Byte Z.bitblast.
Import ListNotations.
Local Open Scope Z_scope.

(** ** Go's [int] *)

Module Int64.

Definition min_int : Z := - 2 ^ 63.
Definition max_int : Z := 2 ^ 63 - 1.

Definition in_range (z : Z) : Prop := min_int <= z <= max_int.

(** Two's complement truncation to 64 bits. *)
Definition wrap64 (z : Z) : Z := (z + 2 ^ 63) mod 2 ^ 64 - 2 ^ 63.

Definition add (a b : Z) : Z := wrap64 (a + b).
Definition sub (a b : Z) : Z := wrap64 (a - b).
Definition neg (a : Z) : Z := wrap64 (- a).

(** [a << uint(k)]: bits shifted past the width are lost, and a count
    of 64 or more leaves zero. *)
Definition shl (a k : Z) : Z := wrap64 (Z.shiftl a k).

End Int64.

(** ** The parts of package [net] the seeders use *)

Module Net.

Definition IP := list byte.
Definition IPMask := list byte.

Record IPNet := { ipnet_IP : IP; ipnet_Mask : IPMask }.

Definition IPv4len : nat := 4.
Definition IPv6len : nat := 16.

Definition v4InV6Prefix : list byte :=
  [Byte.x00; Byte.x00; Byte.x00; Byte.x00; Byte.x00; Byte.x00;
   Byte.x00; Byte.x00; Byte.x00; Byte.x00; Byte.xff; Byte.xff].

Definition allFF (b : list byte) : bool :=
  forallb (fun c => Byte.eqb c Byte.xff) b.

Definition allZero (b : list byte) : bool :=
  forallb (fun c => Byte.eqb c Byte.x00) b.

Definition bytesEqual (a b : list byte) : bool :=
  if list_eq_dec Byte.byte_eq_dec a b then true else false.

(** The inner loop of [simpleMaskLength]:
    [for v&0x80 != 0 { n++; v <<= 1 }] on a byte [v].  A byte is empty
    after eight shifts, which bounds the loop. *)
Fixpoint leadingOnes (fuel : nat) (n v : Z) : Z * Z :=
  match fuel with
  | O => (n, v)
  | S fuel' =>
      if Z.land v 128 =? 0 then (n, v)
      else leadingOnes fuel' (n + 1) (Z.shiftl v 1 mod 256)
  end.

(** [simpleMaskLength]: the number of leading ones of a mask made of
    ones followed by zeros, [-1] for any other mask. *)
Fixpoint simpleMaskLengthFrom (n : Z) (mask : IPMask) : Z :=
  match mask with
  | [] => n
  | v :: rest =>
      if Byte.eqb v Byte.xff then simpleMaskLengthFrom (n + 8) rest
      else
        let '(n', v') := leadingOnes 8 n (byte.unsigned v) in
        if negb (v' =? 0) then -1
        else if allZero rest then n' else -1
  end.

Definition simpleMaskLength (mask : IPMask) : Z :=
  simpleMaskLengthFrom 0 mask.

(** [func (m IPMask) Size() (ones, bits int)]. *)
Definition IPMask_Size (m : IPMask) : Z * Z :=
  let ones := simpleMaskLength m in
  let bits := Z.of_nat (length m) * 8 in
  if ones =? -1 then (0, 0) else (ones, bits).

(** [func (ip IP) Mask(mask IPMask) IP]; [None] is the nil slice. *)
Definition IP_Mask (ip : IP) (mask : IPMask) : option IP :=
  let mask :=
    if Nat.eqb (length mask) IPv6len && Nat.eqb (length ip) IPv4len
       && allFF (firstn 12 mask)
    then skipn 12 mask else mask in
  let ip :=
    if Nat.eqb (length mask) IPv4len && Nat.eqb (length ip) IPv6len
       && bytesEqual (firstn 12 ip) v4InV6Prefix
    then skipn 12 ip else ip in
  if Nat.eqb (length ip) (length mask)
  then Some (map (fun p => byte.and (fst p) (snd p)) (combine ip mask))
  else None.

End Net.

Import Net.

(** ** What both seeders share *)

(** [fmt.Errorf("host address space too small: %v bits", hostBits)];
    a nil [error] is [None]. *)
Inductive error : Type :=
| ErrHostSpaceTooSmall (hostBits : Z).

(** The value behind [phase *uint32] at each instant; the consumer may
    write it while a seeder runs. *)
Definition phaseCell : Type := nat -> Z.

(** What the rest of the program does when a seeder reaches
    [select { case sink <- addr: ; case errc = <-s.quit: }]: the consumer
    takes the address, or [Close] hands over its reply channel. *)
Inductive choice : Type :=
| SinkReady
| CloseCalled.

(** The communications of a seeder: an address sent on [sink], a reply
    channel received on [quit], an error sent on that reply channel. *)
Inductive event : Type :=
| EvSend (addr : option IP)
| EvQuit
| EvReply (err : option error).

(** Where a seeder stands once its environment has nothing more to say
    (or its fuel is spent). *)
Inductive outcome : Type :=
| Returned    (* [run] fell off its end, after [errc <- err] *)
| Blocked     (* parked on a channel operation nobody completes *)
| Panicked    (* a run-time panic took the goroutine down *)
| Running.    (* still looping, no communication pending *)

Definition goroutine : Type := nat -> list choice -> list event * outcome.

Definition isClose (c : choice) : bool :=
  match c with CloseCalled => true | SinkReady => false end.

(** The tail of [run] when the loop was left (or never entered) with
    [errc == nil]: [errc = <-s.quit; errc <- err]. *)
Definition awaitQuit (err : option error) (env : list choice)
  : list event * outcome :=
  if existsb isClose env then ([EvQuit; EvReply err], Returned)
  else ([], Blocked).

(** [subnetBits, maskBits := s.ipnet.Mask.Size();
     hostBits := maskBits - subnetBits]. *)
Definition hostBits (ipnet : IPNet) : Z :=
  let '(subnetBits, maskBits) := IPMask_Size (ipnet_Mask ipnet) in
  maskBits - subnetBits.

(** Slice indexing; [None] is the out-of-range panic. *)
Definition index (s : list byte) (i : Z) : option byte :=
  if i <? 0 then None else nth_error s (Z.to_nat i).

Definition byte_or (a b : byte) : byte :=
  byte.of_Z (Z.lor (byte.unsigned a) (byte.unsigned b)).

(** [for i := len(host) - 1; i >= 0; i-- {
       host[i] |= byte(nextIP & 255); nextIP >>= 8 }],
    on the bytes of [host] taken from the last one. *)
Fixpoint orHostBytes (rhost : list byte) (nextIP : Z) : list byte :=
  match rhost with
  | [] => []
  | b :: r =>
      byte_or b (byte.of_Z (Z.land nextIP 255))
        :: orHostBytes r (Z.shiftr nextIP 8)
  end.

(** [host := s.ipnet.IP.Mask(s.ipnet.Mask)] followed by the loop above.
    [IP.Mask] allocates, so no two addresses share their bytes.  On a
    nil [host] the loop has nothing to do and nil is what is sent. *)
Definition toAddress (ipnet : IPNet) (nextIP : Z) : option IP :=
  match IP_Mask (ipnet_IP ipnet) (ipnet_Mask ipnet) with
  | None => None
  | Some host => Some (rev (orHostBytes (rev host) nextIP))
  end.

(** ** scan.go *)

Module Scan.

Record scanSeeder : Type := { ipnet : IPNet }.

Definition newScanSeeder (ipnet : IPNet) : scanSeeder * option error :=
  ({| ipnet := ipnet |}, None).

(** [for i := 0; i < hostBits; i++ {
       hostIP += int(s.ipnet.IP[len(s.ipnet.IP)-1-i/8]) & (1 << uint(i%8)) }] *)
Fixpoint hostIPLoop (ip : IP) (steps : nat) (i hostIP : Z) : option Z :=
  match steps with
  | O => Some hostIP
  | S steps' =>
      match index ip (Z.of_nat (length ip) - 1 - Z.quot i 8) with
      | None => None
      | Some b =>
          hostIPLoop ip steps' (i + 1)
            (hostIP + Z.land (byte.unsigned b) (Int64.shl 1 (Z.rem i 8)))
      end
  end.

Definition hostIPOf (ipnet : IPNet) : option Z :=
  hostIPLoop (ipnet_IP ipnet) (Z.to_nat (hostBits ipnet)) 0 0.

(** The loop variables [up, down, offset]. *)
Record scanState : Type := { up : bool; down : bool; offset : Z }.

Definition scanInit : scanState :=
  {| up := true; down := true; offset := 0 |}.

(** [(1<<uint(hostBits))-1]. *)
Definition upperBound (hostBits : Z) : Z :=
  Int64.sub (Int64.shl 1 hostBits) 1.

(** One pass through the loop body, up to the [select]: the variables
    after the pass, and the host segment to send ([None] after a
    [continue]). *)
Definition scanBody (hostIP hostBits : Z) (st : scanState)
  : scanState * option Z :=
  let st := if negb (up st) && negb (down st) then scanInit else st in
  let nextIP := Int64.add hostIP (offset st) in
  let offset1 := Int64.neg (offset st) in
  let offset2 := if offset1 >=? 0 then Int64.add offset1 1 else offset1 in
  if nextIP <=? 0 then
    ({| up := up st; down := false; offset := offset2 |}, None)
  else if nextIP >=? upperBound hostBits then
    ({| up := false; down := down st; offset := offset2 |}, None)
  else
    ({| up := up st; down := down st; offset := offset2 |}, Some nextIP).

(** The loop [for ...; err == nil && errc == nil; { ... }] with
    [err == nil], and everything after it. *)
Fixpoint scanLoop (ipnet : IPNet) (hostIP hostBits : Z) (fuel : nat)
    (st : scanState) (env : list choice) : list event * outcome :=
  match fuel with
  | O => ([], Running)
  | S fuel' =>
      match scanBody hostIP hostBits st with
      | (st', None) => scanLoop ipnet hostIP hostBits fuel' st' env
      | (st', Some nextIP) =>
          match env with
          | [] => ([], Blocked)
          | SinkReady :: env' =>
              let '(tr, o) := scanLoop ipnet hostIP hostBits fuel' st' env' in
              (EvSend (toAddress ipnet nextIP) :: tr, o)
          | CloseCalled :: _ => ([EvQuit; EvReply None], Returned)
          end
      end
  end.

(** [func (s *scanSeeder) run(sink chan *net.IPAddr, phase *uint32)]. *)
Definition run (s : scanSeeder) (phase : phaseCell) : goroutine :=
  fun fuel env =>
    let hostBits := hostBits (ipnet s) in
    match hostIPOf (ipnet s) with
    | None => ([], Panicked)
    | Some hostIP =>
        if hostBits <? 2
        then awaitQuit (Some (ErrHostSpaceTooSmall hostBits)) env
        else scanLoop (ipnet s) hostIP hostBits fuel scanInit env
    end.

(** [go s.run(sink, phase); return nil]. *)
Definition Start (s : scanSeeder) (phase : phaseCell)
  : goroutine * option error :=
  (run s phase, None).

End Scan.

(** ** probe.go *)

Module Probe.

Record probeSeeder : Type := { ipnet : IPNet }.

Definition newProbeSeeder (ipnet : IPNet) : probeSeeder * option error :=
  ({| ipnet := ipnet |}, None).

(** [rand.Intn(n)]: a number of [[0, n)], a panic when [n <= 0].  The
    generator is an arbitrary raw value, reduced into the interval. *)
Definition Intn (n raw : Z) : option Z :=
  if n <=? 0 then None else Some (raw mod n).

(** [1<<uint(hostBits)-2]; the shift binds tighter. *)
Definition drawBound (hostBits : Z) : Z :=
  Int64.sub (Int64.shl 1 hostBits) 2.

(** The loop [for err == nil && errc == nil { ... }] with [err == nil],
    and everything after it; [rnd k] is what the generator holds at the
    [k]-th draw.  Every pass ends on the [select], so the environment
    bounds the loop. *)
Fixpoint probeLoop (ipnet : IPNet) (hostBits : Z) (rnd : nat -> Z)
    (k : nat) (env : list choice) {struct env} : list event * outcome :=
  match Intn (drawBound hostBits) (rnd k) with
  | None => ([], Panicked)
  | Some r =>
      let nextIP := Int64.add r 1 in
      match env with
      | [] => ([], Blocked)
      | SinkReady :: env' =>
          let '(tr, o) := probeLoop ipnet hostBits rnd (S k) env' in
          (EvSend (toAddress ipnet nextIP) :: tr, o)
      | CloseCalled :: _ => ([EvQuit; EvReply None], Returned)
      end
  end.

(** [func (s *probeSeeder) run(sink chan *net.IPAddr, phase *uint32)]. *)
Definition run (s : probeSeeder) (rnd : nat -> Z) (phase : phaseCell)
  : goroutine :=
  fun _ env =>
    let hostBits := hostBits (ipnet s) in
    if hostBits <? 2
    then awaitQuit (Some (ErrHostSpaceTooSmall hostBits)) env
    else probeLoop (ipnet s) hostBits rnd 0 env.

(** [go s.run(sink, phase); return nil]. *)
Definition Start (s : probeSeeder) (rnd : nat -> Z) (phase : phaseCell)
  : goroutine * option error :=
  (run s rnd phase, None).

End Probe.

(** [Close]: [errc := make(chan error); s.quit <- errc; return <-errc].
    The call returns what the goroutine sends on [errc], and does not
    return while nothing is sent. *)
Fixpoint replyOf (tr : list event) : option (option error) :=
  match tr with
  | [] => None
  | EvReply err :: _ => Some err
  | _ :: tr' => replyOf tr'
  end.

Definition Close (g : goroutine) (fuel : nat) (env : list choice)
  : option (option error) :=
  replyOf (fst (g fuel env)).

(** The addresses a trace puts on the sink, in order. *)
Fixpoint sent (tr : list event) : list (option IP) :=
  match tr with
  | [] => []
  | EvSend a :: tr' => a :: sent tr'
  | _ :: tr' => sent tr'
  end.

(** ** Sample subnets *)

Definition ip_192_168_0_100 : IP := [Byte.xc0; Byte.xa8; Byte.x00; Byte.x64].
Definition ip_192_168_1_100 : IP := [Byte.xc0; Byte.xa8; Byte.x01; Byte.x64].

(** [net.CIDRMask(ones, bits)] for whole bytes and one partial byte. *)
Definition mask30 : IPMask := [Byte.xff; Byte.xff; Byte.xff; Byte.xfc].
Definition mask31 : IPMask := [Byte.xff; Byte.xff; Byte.xff; Byte.xfe].
Definition mask24 : IPMask := [Byte.xff; Byte.xff; Byte.xff; Byte.x00].
Definition mask20 : IPMask := [Byte.xff; Byte.xff; Byte.xf0; Byte.x00].

Definition net30 : IPNet := {| ipnet_IP := ip_192_168_0_100; ipnet_Mask := mask30 |}.
Definition net31 : IPNet := {| ipnet_IP := ip_192_168_0_100; ipnet_Mask := mask31 |}.
Definition net24 : IPNet := {| ipnet_IP := ip_192_168_0_100; ipnet_Mask := mask24 |}.
Definition net20 : IPNet := {| ipnet_IP := ip_192_168_1_100; ipnet_Mask := mask20 |}.

(** [fe80::1/64], the link-local subnet of an IPv6 interface. *)
Definition ip_fe80_1 : IP :=
  [Byte.xfe; Byte.x80; Byte.x00; Byte.x00; Byte.x00; Byte.x00; Byte.x00; Byte.x00;
   Byte.x00; Byte.x00; Byte.x00; Byte.x00; Byte.x00; Byte.x00; Byte.x00; Byte.x01].
Definition mask64of128 : IPMask :=
  [Byte.xff; Byte.xff; Byte.xff; Byte.xff; Byte.xff; Byte.xff; Byte.xff; Byte.xff;
   Byte.x00; Byte.x00; Byte.x00; Byte.x00; Byte.x00; Byte.x00; Byte.x00; Byte.x00].
Definition net6_64 : IPNet := {| ipnet_IP := ip_fe80_1; ipnet_Mask := mask64of128 |}.

(** [192.168.0.100] with the 128-bit mask of all zeros: more mask bits
    than address bits. *)
Definition mask0of128 : IPMask := repeat Byte.x00 16.
Definition netMalformed : IPNet :=
  {| ipnet_IP := ip_192_168_0_100; ipnet_Mask := mask0of128 |}.

(** ** Notions of the specification *)

(** A byte sequence read as a big-endian number. *)
Definition beValue (b : list byte) : Z :=
  fold_left (fun acc c => Z.lor (Z.shiftl acc 8) (byte.unsigned c)) b 0.

(** The host's own offset in its subnet, as the specification words it:
    the number held by the low [hostBits] bits of the configured
    address. *)
Definition ownHostOffset_spec (ipnet : IPNet) : Z :=
  beValue (ipnet_IP ipnet) mod 2 ^ hostBits ipnet.

(** The host portion of an address of the subnet. *)
Definition hostPortion (ipnet : IPNet) (addr : IP) : Z :=
  beValue addr mod 2 ^ hostBits ipnet.

(** A mask/address pairing is malformed when the mask has more bits
    than the address. *)
Definition malformed (ipnet : IPNet) : Prop :=
  (length (ipnet_IP ipnet) < length (ipnet_Mask ipnet))%nat.

(** An address lies strictly inside the host range of the subnet: it is
    the address of a host offset [h] other than the all-zero and the
    all-one one, and its host portion is [h] whenever it carries
    bytes. *)
Definition insideHostRange (ipnet : IPNet) (addr : option IP) : Prop :=
  exists h : Z,
    0 < h < 2 ^ hostBits ipnet - 1 /\
    addr = toAddress ipnet h /\
    (forall bytes, addr = Some bytes ->
       hostPortion ipnet bytes = h /\
       hostPortion ipnet bytes <> 0 /\
       hostPortion ipnet bytes <> 2 ^ hostBits ipnet - 1).

(** The zig-zag of offsets [0, +1, -1, +2, -2, ...]. *)
Definition zigzag (j : nat) : Z :=
  if Nat.even j then - (Z.of_nat j / 2) else (Z.of_nat j + 1) / 2.

(** The loop variables after [j] passes through the body of the scan
    loop. *)
Fixpoint scanPasses (hostIP hostBits : Z) (j : nat) (st : Scan.scanState)
  : Scan.scanState :=
  match j with
  | O => st
  | S j' => fst (Scan.scanBody hostIP hostBits (scanPasses hostIP hostBits j' st))
  end.

Definition bothDisabled (st : Scan.scanState) : bool :=
  negb (Scan.up st) && negb (Scan.down st).

(** Traces that stop sending once the quit channel was read, and whose
    reply is their last event. *)
Inductive orderly : list event -> outcome -> Prop :=
| orderly_stop o : o <> Returned -> orderly [] o
| orderly_reply err : orderly [EvQuit; EvReply err] Returned
| orderly_send addr tr o : orderly tr o -> orderly (EvSend addr :: tr) o.

(** A goroutine honours the shutdown protocol: nothing is sent on the
    sink after the quit channel was read, and [Close] gets its reply only
    as the last act of the goroutine, which has then returned. *)
Definition honoursShutdown (g : goroutine) : Prop :=
  forall fuel env,
    (forall pre post,
        fst (g fuel env) = pre ++ EvQuit :: post -> sent post = []) /\
    (forall err,
        Close g fuel env = Some err ->
        snd (g fuel env) = Returned /\
        exists addrs,
          fst (g fuel env) = map EvSend addrs ++ [EvQuit; EvReply err]).

(** The host segments that reach the [select] in [j] passes of the scan
    loop when the consumer takes every address, and the loop variables
    after these passes. *)
Fixpoint scanCandidates (hostIP hostBits : Z) (j : nat) (st : Scan.scanState)
  : list Z * Scan.scanState :=
  match j with
  | O => ([], st)
  | S j' =>
      let '(st1, c) := Scan.scanBody hostIP hostBits st in
      let '(l, st2) := scanCandidates hostIP hostBits j' st1 in
      (match c with Some v => v :: l | None => l end, st2)
  end.

(** The loop variables once the offsets [0, +1, -1, ..., +a, -b] were
    tried since the last reset; [a] is [b] or [b + 1]. *)
Definition tried (hostIP bound a b : Z) (st : Scan.scanState) : Prop :=
  0 <= b /\ b <= a <= b + 1 /\
  Scan.offset st = (if a =? b then a + 1 else - a) /\
  Scan.up st = (hostIP + a <? bound) /\
  Scan.down st = (0 <? hostIP - b).

(** ** Further notions *)

(** [net.CIDRMask(ones, bits)], the mask the tests build their subnets
    with; [None] is the nil mask.  The loop
    [for i := 0; i < l; i++ { if n >= 8 { m[i] = 0xff; n -= 8; continue };
       m[i] = ^byte(0xff >> n); n = 0 }]
    fills the [l] bytes from the first one. *)
Fixpoint cidrBytes (l : nat) (n : Z) : list byte :=
  match l with
  | O => []
  | S l' =>
      if n >=? 8 then Byte.xff :: cidrBytes l' (n - 8)
      else byte.of_Z (Z.lnot (Z.shiftr 255 n)) :: cidrBytes l' 0
  end.

Definition CIDRMask (ones bits : Z) : option IPMask :=
  if negb (bits =? 8 * Z.of_nat IPv4len) && negb (bits =? 8 * Z.of_nat IPv6len)
  then None
  else if (ones <? 0) || (ones >? bits) then None
  else Some (cidrBytes (Z.to_nat (bits / 8)) ones).

(** A host segment other than the first and the last one below
    [bound]. *)
Definition inHostRange (bound v : Z) : bool := (0 <? v) && (v <? bound).

(** The segments of the host range among the candidates of the passes
    [start, start + 1, ..., start + len - 1] of a round, in the order of
    the passes. *)
Definition zigzagOrder (hostIP bound : Z) (start len : nat) : list Z :=
  filter (inHostRange bound)
         (map (fun i => hostIP + zigzag i) (seq start len)).

Definition isReply (e : event) : bool :=
  match e with EvReply _ => true | _ => false end.

Definition isQuit (e : event) : bool :=
  match e with EvQuit => true | _ => false end.

(** What the loop over the host bits adds up: of each byte of the
    address, from the last one, the host bits it holds, read as a number
    below 256. *)
Fixpoint hostPartSum (rip : list byte) (hostBits : Z) : Z :=
  match rip with
  | [] => 0
  | b :: r =>
      if hostBits <=? 0 then 0
      else byte.unsigned b mod 2 ^ Z.min hostBits 8
           + hostPartSum r (hostBits - 8)
  end.

(** The number of passes of a round of the scan from the origin
    [hostIP] over the host segments below [bound]: the passes up to the
    one that disables the second direction. *)
Definition roundPasses (hostIP bound : Z) : nat :=
  Z.to_nat (Z.max (2 * hostIP + 1) (2 * (bound - hostIP))).

(** The candidate of pass [i] of a run, passes counted from [0]. *)
Definition passCandidate (hostIP bound : Z) (i : nat) : Z :=
  hostIP + zigzag (i mod roundPasses hostIP bound).

(** The loop variables [r] passes after a reset: a direction is enabled
    as long as no candidate since the reset left the host range on its
    side. *)
Definition passState (hostIP bound : Z) (r : nat) : Scan.scanState :=
  {| Scan.up := forallb (fun k => hostIP + zigzag k <? bound) (seq 0 r);
     Scan.down := forallb (fun k => 0 <? hostIP + zigzag k) (seq 0 r);
     Scan.offset := zigzag r |}.

(** The passes made since the last reset, after [j] passes of a run
    whose rounds have [P] passes. *)
Definition passesSinceReset (P j : nat) : nat :=
  match j with
  | O => O
  | S j' => S (j' mod P)
  end.

(** Case analysis on the comparisons of a goal. *)
Ltac ltb_cases :=
  repeat match goal with
         | |- context [?x <? ?y] => destruct (Z.ltb_spec x y)
         end;
  try reflexivity; try lia.

(** * Properties *)

(** ** 64-bit arithmetic *)

Lemma wrap64_small z : Int64.in_range z -> Int64.wrap64 z = z.
Proof.
  unfold Int64.in_range, Int64.min_int, Int64.max_int, Int64.wrap64.
  intros H. rewrite Z.mod_small; lia.
Qed.

Lemma wrap64_range z : Int64.in_range (Int64.wrap64 z).
Proof.
  unfold Int64.in_range, Int64.min_int, Int64.max_int, Int64.wrap64.
  pose proof (Z.mod_pos_bound (z + 2 ^ 63) (2 ^ 64) eq_refl). lia.
Qed.

Lemma shl_1_small k : 0 <= k <= 62 -> Int64.shl 1 k = 2 ^ k.
Proof.
  intros H. unfold Int64.shl. rewrite Z.shiftl_1_l.
  apply wrap64_small. unfold Int64.in_range, Int64.min_int, Int64.max_int.
  assert (2 ^ k <= 2 ^ 62) by (apply Z.pow_le_mono_r; lia).
  assert (0 < 2 ^ k) by (apply Z.pow_pos_nonneg; lia). lia.
Qed.

Lemma shl_1_63 : Int64.shl 1 63 = - 2 ^ 63.
Proof. reflexivity. Qed.

Lemma shl_1_large k : 64 <= k -> Int64.shl 1 k = 0.
Proof.
  intros H. unfold Int64.shl, Int64.wrap64. rewrite Z.shiftl_1_l.
  replace k with (64 + (k - 64)) by lia.
  rewrite Z.pow_add_r by lia.
  rewrite Z.add_comm, Z.mul_comm, Z.mod_add by lia.
  reflexivity.
Qed.

(** [(1<<uint(hostBits))-1] is the mathematical [2^hostBits - 1] up to
    63 host bits, and [-1] from 64 bits on. *)
Lemma upperBound_small hb : 0 <= hb <= 63 -> Scan.upperBound hb = 2 ^ hb - 1.
Proof.
  intros H. unfold Scan.upperBound.
  destruct (Z.eq_dec hb 63) as [-> | Hne]; [reflexivity|].
  rewrite shl_1_small by lia. unfold Int64.sub. apply wrap64_small.
  unfold Int64.in_range, Int64.min_int, Int64.max_int.
  assert (2 ^ hb <= 2 ^ 62) by (apply Z.pow_le_mono_r; lia).
  assert (0 < 2 ^ hb) by (apply Z.pow_pos_nonneg; lia). lia.
Qed.

Lemma upperBound_large hb : 64 <= hb -> Scan.upperBound hb = -1.
Proof. intros H. unfold Scan.upperBound. rewrite shl_1_large by lia. reflexivity. Qed.

Lemma drawBound_small hb : 0 <= hb <= 63 -> Probe.drawBound hb = 2 ^ hb - 2.
Proof.
  intros H. unfold Probe.drawBound.
  destruct (Z.eq_dec hb 63) as [-> | Hne]; [reflexivity|].
  rewrite shl_1_small by lia. unfold Int64.sub. apply wrap64_small.
  unfold Int64.in_range, Int64.min_int, Int64.max_int.
  assert (2 ^ hb <= 2 ^ 62) by (apply Z.pow_le_mono_r; lia).
  assert (0 < 2 ^ hb) by (apply Z.pow_pos_nonneg; lia). lia.
Qed.

Lemma drawBound_large hb : 64 <= hb -> Probe.drawBound hb = -2.
Proof. intros H. unfold Probe.drawBound. rewrite shl_1_large by lia. reflexivity. Qed.

(** ** Construction and start *)

(** C7, as the code has it: constructing a seeder never fails.  Both
    constructors return the seeder that holds the subnet and a nil error
    for every mask/address pairing, a malformed one included. *)
Theorem newSeeder_never_fails (ipnet : IPNet) :
  Scan.newScanSeeder ipnet = ({| Scan.ipnet := ipnet |}, None) /\
  Probe.newProbeSeeder ipnet = ({| Probe.ipnet := ipnet |}, None).
Proof. split; reflexivity. Qed.

(** C7 fails as stated: a 128-bit mask paired with a 32-bit address is
    accepted by both constructors. *)
Lemma newSeeder_accepts_malformed :
  malformed netMalformed /\
  snd (Scan.newScanSeeder netMalformed) = None /\
  snd (Probe.newProbeSeeder netMalformed) = None.
Proof. repeat split. unfold malformed; simpl. lia. Qed.

(** C8: the behaviour of a seeder is the same whatever the phase cell
    holds, at every instant: same trace, hence same addresses in the same
    order, and same outcome. *)
Theorem phase_never_read :
  (forall (s : Scan.scanSeeder) (phase1 phase2 : phaseCell) fuel env,
      Scan.run s phase1 fuel env = Scan.run s phase2 fuel env /\
      sent (fst (Scan.run s phase1 fuel env))
      = sent (fst (Scan.run s phase2 fuel env))) /\
  (forall (s : Probe.probeSeeder) (rnd : nat -> Z)
          (phase1 phase2 : phaseCell) fuel env,
      Probe.run s rnd phase1 fuel env = Probe.run s rnd phase2 fuel env /\
      sent (fst (Probe.run s rnd phase1 fuel env))
      = sent (fst (Probe.run s rnd phase2 fuel env))).
Proof. split; intros; split; reflexivity. Qed.

(** ** The scan origin *)

(** C4 at [192.168.1.100/20]: the host's offset in the subnet is
    [0x164 = 356], the origin the scan computes is [101]: bit [i] of the
    host part is added with the weight [2^(i%8)] it has in its byte,
    not with [2^i]. *)
Theorem hostIP_drops_byte_weight :
  hostBits net20 = 12 /\
  ownHostOffset_spec net20 = 356 /\
  Scan.hostIPOf net20 = Some 101 /\
  snd (Scan.scanBody 101 12 Scan.scanInit) = Some 101.
Proof. repeat split; vm_compute; reflexivity. Qed.

(** ** Subnets of 64 host bits and more *)

Lemma scanBody_large hostIP hb st :
  64 <= hb -> snd (Scan.scanBody hostIP hb st) = None.
Proof.
  intros H. unfold Scan.scanBody. rewrite upperBound_large by assumption.
  set (st0 := if negb (Scan.up st) && negb (Scan.down st) then _ else _).
  set (nextIP := Int64.add hostIP (Scan.offset st0)).
  destruct (Z.leb_spec nextIP 0); [reflexivity|].
  rewrite Z.geb_leb. destruct (Z.leb_spec (-1) nextIP); [reflexivity | lia].
Qed.

Lemma scanLoop_large ipnet hostIP hb fuel :
  64 <= hb ->
  forall st env, Scan.scanLoop ipnet hostIP hb fuel st env = ([], Running).
Proof.
  intros H. induction fuel as [|fuel IH]; intros st env; simpl; [reflexivity|].
  pose proof (scanBody_large hostIP hb st H) as Hb.
  destruct (Scan.scanBody hostIP hb st) as [st' [v|]]; simpl in Hb.
  - discriminate.
  - apply IH.
Qed.

(** From 64 host bits on the scanner sends nothing, whatever its
    origin, and the prober panics on its first draw. *)
Lemma scan_silent_from_64 ipnet phase fuel env :
  64 <= hostBits ipnet ->
  sent (fst (Scan.run {| Scan.ipnet := ipnet |} phase fuel env)) = [] /\
  Close (Scan.run {| Scan.ipnet := ipnet |} phase) fuel env = None.
Proof.
  intros Hhb. unfold Close, Scan.run. simpl Scan.ipnet.
  destruct (Scan.hostIPOf ipnet) as [h|]; [|split; reflexivity].
  destruct (Z.ltb_spec (hostBits ipnet) 2); [lia|].
  rewrite scanLoop_large by assumption. split; reflexivity.
Qed.

Lemma probe_panics_from_64 ipnet rnd phase fuel env :
  64 <= hostBits ipnet ->
  Probe.run {| Probe.ipnet := ipnet |} rnd phase fuel env = ([], Panicked).
Proof.
  intros Hhb. unfold Probe.run. simpl Probe.ipnet.
  destruct (Z.ltb_spec (hostBits ipnet) 2); [lia|].
  destruct env as [|c env]; simpl; rewrite drawBound_large by assumption;
    reflexivity.
Qed.

Lemma scan_run_at_64 phase fuel env :
  Scan.run {| Scan.ipnet := net6_64 |} phase fuel env = ([], Running).
Proof.
  unfold Scan.run. simpl Scan.ipnet.
  change (hostBits net6_64) with 64.
  change (Scan.hostIPOf net6_64) with (Some 1).
  simpl. apply scanLoop_large. lia.
Qed.

Lemma probe_run_at_64 rnd phase fuel env :
  Probe.run {| Probe.ipnet := net6_64 |} rnd phase fuel env = ([], Panicked).
Proof.
  unfold Probe.run. simpl Probe.ipnet.
  change (hostBits net6_64) with 64. simpl.
  destruct env; reflexivity.
Qed.

(** C1 at [fe80::1/64]: [1<<uint(64)] is [0], the upper bound of the
    host range is [-1], every candidate is skipped and the loop never
    reaches its [select]: no address is sent, whatever the environment
    and however long the goroutine runs. *)
Theorem scan_sends_nothing_at_64 :
  hostBits net6_64 = 64 /\
  Scan.upperBound (hostBits net6_64) = -1 /\
  forall phase fuel env,
    Scan.run {| Scan.ipnet := net6_64 |} phase fuel env = ([], Running) /\
    sent (fst (Scan.run {| Scan.ipnet := net6_64 |} phase fuel env)) = [].
Proof.
  split; [reflexivity|]. split; [reflexivity|].
  intros phase fuel env. rewrite scan_run_at_64. split; reflexivity.
Qed.

(** C10 at [fe80::1/64]: the argument of [rand.Intn] is [0 - 2], the
    draw panics, and so does the goroutine before any [select]. *)
Theorem probe_draw_panics_at_64 :
  hostBits net6_64 = 64 /\
  Probe.drawBound (hostBits net6_64) = -2 /\
  (forall raw, Probe.Intn (Probe.drawBound (hostBits net6_64)) raw = None) /\
  forall rnd phase fuel env,
    Probe.run {| Probe.ipnet := net6_64 |} rnd phase fuel env = ([], Panicked).
Proof.
  split; [reflexivity|]. split; [reflexivity|]. split; [reflexivity|].
  intros. apply probe_run_at_64.
Qed.

(** C3 at [fe80::1/64], a subnet of more than two host bits: [Close]
    after [Start] never returns.  The scanner spins without reading its
    quit channel; the prober has panicked. *)
Theorem Close_never_returns_at_64 :
  2 <= hostBits net6_64 /\
  (forall phase fuel env,
      Close (fst (Scan.Start {| Scan.ipnet := net6_64 |} phase)) fuel env = None) /\
  (forall rnd phase fuel env,
      Close (fst (Probe.Start {| Probe.ipnet := net6_64 |} rnd phase)) fuel env
      = None).
Proof.
  split; [vm_compute; discriminate|]. split.
  - intros phase fuel env. unfold Close, Scan.Start. simpl fst at 2.
    rewrite scan_run_at_64. reflexivity.
  - intros rnd phase fuel env. unfold Close, Probe.Start. simpl fst at 2.
    rewrite probe_run_at_64. reflexivity.
Qed.

(** ** The shutdown protocol *)

Lemma orderly_awaitQuit err env :
  orderly (fst (awaitQuit err env)) (snd (awaitQuit err env)).
Proof.
  unfold awaitQuit. destruct (existsb isClose env); simpl.
  - apply orderly_reply.
  - apply orderly_stop. discriminate.
Qed.

Lemma orderly_scanLoop ipnet hostIP hb fuel :
  forall st env,
    orderly (fst (Scan.scanLoop ipnet hostIP hb fuel st env))
            (snd (Scan.scanLoop ipnet hostIP hb fuel st env)).
Proof.
  induction fuel as [|fuel IH]; intros st env; simpl.
  - apply orderly_stop. discriminate.
  - destruct (Scan.scanBody hostIP hb st) as [st' [v|]].
    + destruct env as [|[|] env'].
      * apply orderly_stop. discriminate.
      * specialize (IH st' env').
        destruct (Scan.scanLoop ipnet hostIP hb fuel st' env') as [tr o].
        simpl in *. apply orderly_send. exact IH.
      * apply orderly_reply.
    + apply IH.
Qed.

Lemma orderly_probeLoop ipnet hb rnd env :
  forall k,
    orderly (fst (Probe.probeLoop ipnet hb rnd k env))
            (snd (Probe.probeLoop ipnet hb rnd k env)).
Proof.
  induction env as [|c env' IH]; intros k; simpl.
  - destruct (Probe.Intn _ _); apply orderly_stop; discriminate.
  - destruct (Probe.Intn _ _).
    + destruct c.
      * specialize (IH (S k)).
        destruct (Probe.probeLoop ipnet hb rnd (S k) env') as [tr o].
        simpl in *. apply orderly_send. exact IH.
      * apply orderly_reply.
    + apply orderly_stop. discriminate.
Qed.

Lemma orderly_scan_run s phase fuel env :
  orderly (fst (Scan.run s phase fuel env)) (snd (Scan.run s phase fuel env)).
Proof.
  unfold Scan.run. destruct (Scan.hostIPOf (Scan.ipnet s)).
  - destruct (hostBits (Scan.ipnet s) <? 2).
    + apply orderly_awaitQuit.
    + apply orderly_scanLoop.
  - apply orderly_stop. discriminate.
Qed.

Lemma orderly_probe_run s rnd phase fuel env :
  orderly (fst (Probe.run s rnd phase fuel env))
          (snd (Probe.run s rnd phase fuel env)).
Proof.
  unfold Probe.run. destruct (hostBits (Probe.ipnet s) <? 2).
  - apply orderly_awaitQuit.
  - apply orderly_probeLoop.
Qed.

Lemma orderly_after_quit tr o :
  orderly tr o ->
  forall pre post, tr = pre ++ EvQuit :: post -> sent post = [].
Proof.
  induction 1 as [o Ho | err | addr tr o H IH]; intros pre post E.
  - destruct pre; discriminate.
  - destruct pre as [|e pre]; simpl in E.
    + injection E as <-. reflexivity.
    + injection E as _ E. destruct pre as [|e' pre]; simpl in E.
      * discriminate.
      * injection E as _ E. destruct pre; discriminate.
  - destruct pre as [|e pre]; simpl in E.
    + discriminate.
    + injection E as _ E. eapply IH. exact E.
Qed.

Lemma orderly_reply_last tr o :
  orderly tr o ->
  forall err, replyOf tr = Some err ->
    o = Returned /\ exists addrs, tr = map EvSend addrs ++ [EvQuit; EvReply err].
Proof.
  induction 1 as [o Ho | err' | addr tr o H IH]; intros err E; simpl in E.
  - discriminate.
  - injection E as ->. split; [reflexivity|]. exists []. reflexivity.
  - destruct (IH err E) as [-> [addrs ->]].
    split; [reflexivity|]. exists (addr :: addrs). reflexivity.
Qed.

Lemma orderly_honours (g : goroutine) :
  (forall fuel env, orderly (fst (g fuel env)) (snd (g fuel env))) ->
  honoursShutdown g.
Proof.
  intros H fuel env. split.
  - intros pre post E. eapply orderly_after_quit; [apply H | exact E].
  - intros err E. eapply orderly_reply_last; [apply H | exact E].
Qed.

(** C6: in every run of either seeder, under every behaviour of its
    environment, no address is sent once the quit channel was read, and
    the reply that lets [Close] return is the last event of a goroutine
    that has returned. *)
Theorem seeders_honour_shutdown :
  (forall s phase, honoursShutdown (Scan.run s phase)) /\
  (forall s rnd phase, honoursShutdown (Probe.run s rnd phase)).
Proof.
  split; intros; apply orderly_honours; intros.
  - apply orderly_scan_run.
  - apply orderly_probe_run.
Qed.

(** ** One pass of the scan loop *)

Lemma geb_leb_iff a b : (a >=? b) = (b <=? a).
Proof. apply Z.geb_leb. Qed.

(** The pass starts from the initial variables when both directions
    are disabled. *)
Lemma scanBody_reset hostIP hb st :
  bothDisabled st = true ->
  Scan.scanBody hostIP hb st = Scan.scanBody hostIP hb Scan.scanInit.
Proof.
  unfold bothDisabled, Scan.scanBody. intros ->. reflexivity.
Qed.

Lemma scanLoop_reset ipnet hostIP hb fuel st env :
  bothDisabled st = true ->
  Scan.scanLoop ipnet hostIP hb fuel st env
  = Scan.scanLoop ipnet hostIP hb fuel Scan.scanInit env.
Proof.
  intros H. destruct fuel as [|fuel]; simpl; [reflexivity|].
  rewrite (scanBody_reset hostIP hb st H). reflexivity.
Qed.

(** What a pass does when no operation overflows. *)
Lemma scanBody_exact hostIP hb st :
  let st0 := if bothDisabled st then Scan.scanInit else st in
  let o := Scan.offset st0 in
  Int64.in_range (hostIP + o) ->
  Int64.in_range (- o) ->
  Int64.in_range (1 - o) ->
  Scan.scanBody hostIP hb st =
  let o' := if 0 <=? - o then - o + 1 else - o in
  if hostIP + o <=? 0 then
    ({| Scan.up := Scan.up st0; Scan.down := false; Scan.offset := o' |}, None)
  else if Scan.upperBound hb <=? hostIP + o then
    ({| Scan.up := false; Scan.down := Scan.down st0; Scan.offset := o' |}, None)
  else
    ({| Scan.up := Scan.up st0; Scan.down := Scan.down st0; Scan.offset := o' |},
     Some (hostIP + o)).
Proof.
  intros st0 o H1 H2 H3. unfold Scan.scanBody.
  fold (bothDisabled st). fold st0. fold o.
  unfold Int64.add, Int64.neg.
  rewrite (wrap64_small (hostIP + o)) by assumption.
  rewrite (wrap64_small (- o)) by assumption.
  rewrite !geb_leb_iff.
  destruct (Z.leb_spec 0 (- o)).
  - rewrite (wrap64_small (- o + 1)); [reflexivity|].
    replace (- o + 1) with (1 - o) by lia. assumption.
  - reflexivity.
Qed.

Lemma zigzag_next j :
  Z.of_nat j < 2 ^ 62 ->
  (if 0 <=? - zigzag j then - zigzag j + 1 else - zigzag j) = zigzag (S j).
Proof.
  intros Hj. unfold zigzag. rewrite Nat.even_succ, <- Nat.negb_even.
  rewrite Nat2Z.inj_succ.
  destruct (Nat.even j) eqn:E; simpl negb; cbv iota.
  - apply Nat.even_spec in E. destruct E as [k ->].
    rewrite Nat2Z.inj_mul. change (Z.of_nat 2) with 2.
    match goal with |- context [0 <=? ?x] => destruct (Z.leb_spec 0 x) end;
      Z.div_mod_to_equations; lia.
  - assert (O : Nat.odd j = true) by (rewrite <- Nat.negb_even, E; reflexivity).
    apply Nat.odd_spec in O. destruct O as [k ->].
    rewrite Nat2Z.inj_add, Nat2Z.inj_mul. change (Z.of_nat 2) with 2.
    change (Z.of_nat 1) with 1.
    match goal with |- context [0 <=? ?x] => destruct (Z.leb_spec 0 x) end;
      Z.div_mod_to_equations; lia.
Qed.

Lemma zigzag_bound j : - Z.of_nat j <= 2 * zigzag j <= Z.of_nat j + 1.
Proof.
  unfold zigzag. destruct (Nat.even j); Z.div_mod_to_equations; lia.
Qed.

Lemma scanPasses_offset hostIP hb j :
  Z.of_nat j < 2 ^ 62 ->
  (forall i, (i < j)%nat ->
     bothDisabled (scanPasses hostIP hb i Scan.scanInit) = false) ->
  Scan.offset (scanPasses hostIP hb j Scan.scanInit) = zigzag j.
Proof.
  induction j as [|j IH]; intros Hj Hno; [reflexivity|].
  rewrite Nat2Z.inj_succ in Hj.
  assert (IH' : Scan.offset (scanPasses hostIP hb j Scan.scanInit) = zigzag j).
  { apply IH; [lia|]. intros i Hi. apply Hno. lia. }
  simpl scanPasses.
  set (st := scanPasses hostIP hb j Scan.scanInit) in *.
  assert (Hst : bothDisabled st = false) by (apply Hno; lia).
  rewrite <- zigzag_next by lia. rewrite <- IH'.
  pose proof (zigzag_bound j) as Hb. rewrite <- IH' in Hb.
  unfold Scan.scanBody. fold (bothDisabled st). rewrite Hst.
  unfold Int64.neg.
  rewrite (wrap64_small (- Scan.offset st))
    by (unfold Int64.in_range, Int64.min_int, Int64.max_int; lia).
  rewrite geb_leb_iff.
  assert (Ho : (if 0 <=? - Scan.offset st
                then Int64.add (- Scan.offset st) 1 else - Scan.offset st)
               = (if 0 <=? - Scan.offset st
                  then - Scan.offset st + 1 else - Scan.offset st)).
  { destruct (0 <=? - Scan.offset st); [|reflexivity].
    apply wrap64_small.
    unfold Int64.in_range, Int64.min_int, Int64.max_int; lia. }
  destruct (_ <=? 0); [|destruct (_ >=? _)]; simpl; exact Ho.
Qed.

(** ** A round of the scan *)

Section Round.

Variables hostIP hb : Z.
Hypothesis Hhb : 2 <= hb <= 63.
Hypothesis HhostIP : 0 <= hostIP <= 2 ^ hb - 1.
Hypothesis Hdouble : 2 * hostIP <= Int64.max_int.

Let bound : Z := 2 ^ hb - 1.

Lemma bound_range : 3 <= bound <= Int64.max_int.
Proof.
  unfold bound, Int64.max_int.
  assert (2 ^ 2 <= 2 ^ hb) by (apply Z.pow_le_mono_r; lia).
  assert (2 ^ hb <= 2 ^ 63) by (apply Z.pow_le_mono_r; lia).
  lia.
Qed.

Lemma upperBound_bound : Scan.upperBound hb = bound.
Proof. apply upperBound_small. lia. Qed.

(** One pass from variables that have both directions disabled or are
    the initial ones: the candidate is [hostIP] itself. *)
Lemma first_pass st :
  bothDisabled st = true \/ st = Scan.scanInit ->
  exists st1,
    Scan.scanBody hostIP hb st
    = (st1, if (0 <? hostIP) && (hostIP <? bound) then Some hostIP else None) /\
    tried hostIP bound 0 0 st1.
Proof.
  intros Hst.
  assert (E : Scan.scanBody hostIP hb st = Scan.scanBody hostIP hb Scan.scanInit).
  { destruct Hst as [H | ->]; [apply scanBody_reset; exact H | reflexivity]. }
  rewrite E. clear E Hst st.
  pose proof bound_range as Hb. unfold Int64.max_int in *.
  rewrite (scanBody_exact hostIP hb Scan.scanInit);
    try (simpl; unfold Int64.in_range, Int64.min_int, Int64.max_int; lia).
  rewrite upperBound_bound. simpl.
  replace (hostIP + 0) with hostIP by lia.
  unfold tried.
  destruct (Z.leb_spec hostIP 0); [|destruct (Z.leb_spec bound hostIP)];
    destruct (Z.ltb_spec 0 hostIP); destruct (Z.ltb_spec hostIP bound);
    try lia; simpl; eexists; (split; [reflexivity|]); simpl;
    repeat split; try lia;
    try (symmetry; apply Z.ltb_lt; lia); try (symmetry; apply Z.ltb_ge; lia).
Qed.

(** One pass from variables with a direction still enabled. *)
Lemma next_pass a b st :
  tried hostIP bound a b st ->
  bothDisabled st = false ->
  exists st1,
    Scan.scanBody hostIP hb st
    = (st1,
       if a =? b
       then (if hostIP + a + 1 <? bound then Some (hostIP + a + 1) else None)
       else (if 0 <? hostIP - a then Some (hostIP - a) else None)) /\
    tried hostIP bound (if a =? b then a + 1 else a)
                       (if a =? b then b else b + 1) st1 /\
    a + b <= 2 * bound.
Proof.
  intros (Hb0 & Hab & Ho & Hu & Hd) Hen.
  pose proof bound_range as Hb. unfold Int64.max_int in *.
  assert (Hlive : hostIP + a < bound \/ 0 < hostIP - b).
  { unfold bothDisabled in Hen. rewrite Hu, Hd in Hen.
    destruct (Z.ltb_spec (hostIP + a) bound); [left; assumption|].
    destruct (Z.ltb_spec 0 (hostIP - b)); [right; assumption|].
    discriminate. }
  assert (Hst0 : (if bothDisabled st then Scan.scanInit else st) = st)
    by (rewrite Hen; reflexivity).
  pose proof (scanBody_exact hostIP hb st) as E. cbv zeta in E.
  rewrite Hst0, Ho, upperBound_bound in E.
  destruct (Z.eqb_spec a b) as [Eab | Nab].
  - subst b.
    rewrite E by (unfold Int64.in_range, Int64.min_int, Int64.max_int; lia).
    clear E. replace (hostIP + (a + 1)) with (hostIP + a + 1) by lia.
    destruct (Z.leb_spec (hostIP + a + 1) 0); [lia|].
    destruct (Z.leb_spec 0 (- (a + 1))); [lia|].
    destruct (Z.leb_spec bound (hostIP + a + 1));
      destruct (Z.ltb_spec (hostIP + a + 1) bound); try lia;
      eexists; (split; [reflexivity|]); (split; [|lia]);
      unfold tried; simpl;
      (destruct (Z.eqb_spec (a + 1) a); [lia|]);
      repeat split; try lia; try assumption;
      rewrite ?Hu, ?Hd; ltb_cases.
  - assert (a = b + 1) by lia. subst a.
    rewrite E by (unfold Int64.in_range, Int64.min_int, Int64.max_int; lia).
    clear E. replace (hostIP + - (b + 1)) with (hostIP - (b + 1)) by lia.
    destruct (Z.leb_spec bound (hostIP - (b + 1))); [lia|].
    destruct (Z.leb_spec 0 (- - (b + 1))); [|lia].
    destruct (Z.leb_spec (hostIP - (b + 1)) 0);
      destruct (Z.ltb_spec 0 (hostIP - (b + 1))); try lia;
      eexists; (split; [reflexivity|]); (split; [|lia]);
      unfold tried; simpl; rewrite Z.eqb_refl;
      repeat split; try lia; try assumption;
      rewrite ?Hu, ?Hd; ltb_cases.
Qed.

(** From variables that record the offsets tried so far, the loop gets
    to variables with both directions disabled, and the segments it
    sends on the way are, once each, the ones of the host range not
    tried yet. *)
Lemma round_rest n :
  forall a b st,
    tried hostIP bound a b st ->
    2 * bound + 2 - (a + b) <= Z.of_nat n ->
    exists j l st',
      scanCandidates hostIP hb j st = (l, st') /\
      bothDisabled st' = true /\
      NoDup l /\
      forall v, In v l <->
                0 < v < bound /\ (v < hostIP - b \/ hostIP + a < v).
Proof.
  induction n as [|n IH]; intros a b st Ht Hn;
    destruct (bothDisabled st) eqn:Hen.
  1, 3:
    exists 0%nat, [], st; split; [reflexivity|]; split; [exact Hen|];
    split; [constructor|]; intros v; split; [intros []|];
    destruct Ht as (_ & _ & _ & Hu & Hd);
    unfold bothDisabled in Hen; rewrite Hu, Hd in Hen;
    destruct (Z.ltb_spec (hostIP + a) bound); [discriminate|];
    destruct (Z.ltb_spec 0 (hostIP - b)); [discriminate|]; lia.
  - destruct (next_pass a b st Ht Hen) as (st1 & _ & _ & Hle). lia.
  - destruct (next_pass a b st Ht Hen) as (st1 & E & Ht1 & Hle).
    pose proof Ht as (Hb0 & Hab & _).
    destruct (Z.eqb_spec a b) as [Eab | Nab].
    + subst b.
      destruct (IH (a + 1) a st1 Ht1) as (j & l & st' & Ej & Hdis & Hnd & Hin);
        [lia|].
      destruct (Z.ltb_spec (hostIP + a + 1) bound) as [Hlt | Hge].
      * exists (S j), (hostIP + a + 1 :: l), st'. simpl. rewrite E, Ej.
        split; [reflexivity|]. split; [exact Hdis|]. split.
        -- constructor; [|exact Hnd]. rewrite Hin. lia.
        -- intros v. simpl. rewrite Hin. lia.
      * exists (S j), l, st'. simpl. rewrite E, Ej.
        split; [reflexivity|]. split; [exact Hdis|]. split; [exact Hnd|].
        intros v. rewrite Hin. lia.
    + assert (a = b + 1) by lia. subst a.
      destruct (IH (b + 1) (b + 1) st1 Ht1)
        as (j & l & st' & Ej & Hdis & Hnd & Hin); [lia|].
      destruct (Z.ltb_spec 0 (hostIP - (b + 1))) as [Hlt | Hge].
      * exists (S j), (hostIP - (b + 1) :: l), st'. simpl. rewrite E, Ej.
        split; [reflexivity|]. split; [exact Hdis|]. split.
        -- constructor; [|exact Hnd]. rewrite Hin. lia.
        -- intros v. simpl. rewrite Hin. lia.
      * exists (S j), l, st'. simpl. rewrite E, Ej.
        split; [reflexivity|]. split; [exact Hdis|]. split; [exact Hnd|].
        intros v. rewrite Hin. lia.
Qed.

(** A round: from the initial variables, or from variables with both
    directions disabled, the loop gets to variables with both directions
    disabled after sending every segment of the host range once. *)
Lemma round st :
  bothDisabled st = true \/ st = Scan.scanInit ->
  exists j l st',
    scanCandidates hostIP hb (S j) st = (l, st') /\
    bothDisabled st' = true /\
    NoDup l /\
    forall v, In v l <-> 0 < v < bound.
Proof.
  intros Hst. destruct (first_pass st Hst) as (st1 & E & Ht1).
  pose proof bound_range as Hb.
  destruct (round_rest (Z.to_nat (2 * bound + 2)) 0 0 st1 Ht1)
    as (j & l & st' & Ej & Hdis & Hnd & Hin); [lia|].
  destruct ((0 <? hostIP) && (hostIP <? bound)) eqn:Hc.
  - apply andb_true_iff in Hc. destruct Hc as [H0 H1].
    apply Z.ltb_lt in H0, H1.
    exists j, (hostIP :: l), st'. simpl. rewrite E, Ej.
    split; [reflexivity|]. split; [exact Hdis|]. split.
    + constructor; [|exact Hnd]. rewrite Hin. lia.
    + intros v. simpl. rewrite Hin. lia.
  - exists j, l, st'. simpl. rewrite E, Ej.
    split; [reflexivity|]. split; [exact Hdis|]. split; [exact Hnd|].
    intros v. rewrite Hin.
    apply andb_false_iff in Hc.
    destruct Hc as [Hc | Hc]; apply Z.ltb_ge in Hc; lia.
Qed.

End Round.

(** ** Addresses as numbers *)

Lemma byte_testbit_high b i : 8 <= i -> Z.testbit (byte.unsigned b) i = false.
Proof.
  intros Hi. pose proof (byte.unsigned_range b) as Hr.
  rewrite <- (Z.mod_small (byte.unsigned b) (2 ^ 8)) by assumption.
  apply Z.mod_pow2_bits_high. lia.
Qed.

Lemma beValue_snoc l b :
  beValue (l ++ [b]) = Z.lor (Z.shiftl (beValue l) 8) (byte.unsigned b).
Proof. unfold beValue. rewrite fold_left_app. reflexivity. Qed.

Lemma unsigned_byte_or a b :
  byte.unsigned (byte_or a b) = Z.lor (byte.unsigned a) (byte.unsigned b).
Proof.
  unfold byte_or. rewrite byte.unsigned_of_Z. unfold byte.wrap.
  apply Z.bits_inj'. intros i Hi.
  destruct (Z.ltb_spec i 8).
  - rewrite Z.mod_pow2_bits_low by lia. reflexivity.
  - rewrite Z.mod_pow2_bits_high by lia.
    rewrite Z.lor_spec, !byte_testbit_high by lia. reflexivity.
Qed.

Lemma unsigned_byte_and a b :
  byte.unsigned (byte.and a b) = Z.land (byte.unsigned a) (byte.unsigned b).
Proof.
  unfold byte.and. rewrite byte.unsigned_of_Z. unfold byte.wrap.
  apply Z.bits_inj'. intros i Hi.
  destruct (Z.ltb_spec i 8).
  - rewrite Z.mod_pow2_bits_low by lia. reflexivity.
  - rewrite Z.mod_pow2_bits_high by lia.
    rewrite Z.land_spec, !byte_testbit_high by lia. reflexivity.
Qed.

Lemma unsigned_low_byte v :
  byte.unsigned (byte.of_Z (Z.land v 255)) = Z.land v (Z.ones 8).
Proof.
  rewrite byte.unsigned_of_Z. unfold byte.wrap.
  change 255 with (Z.ones 8). rewrite Z.land_ones by lia.
  apply Z.mod_mod. lia.
Qed.

Lemma beValue_orHostBytes r :
  forall v,
    beValue (rev (orHostBytes r v))
    = Z.lor (beValue (rev r)) (Z.land v (Z.ones (8 * Z.of_nat (length r)))).
Proof.
  induction r as [|b r IH]; intros v.
  - simpl. rewrite Z.land_0_r. reflexivity.
  - simpl rev. rewrite !beValue_snoc, IH, unsigned_byte_or, unsigned_low_byte.
    cbn [length]. rewrite Nat2Z.inj_succ.
    set (L := Z.of_nat (length r)). assert (0 <= L) by lia.
    set (B := beValue (rev r)). set (u := byte.unsigned b).
    assert (Hu : forall i, 8 <= i -> Z.testbit u i = false)
      by (intros; apply byte_testbit_high; assumption).
    clearbody L B u.
    Z.bitblast.
Qed.

Lemma fold_be_shift rest :
  forall acc,
    fold_left (fun a c => Z.lor (Z.shiftl a 8) (byte.unsigned c)) rest acc
    = Z.lor (Z.shiftl acc (8 * Z.of_nat (length rest))) (beValue rest).
Proof.
  unfold beValue.
  induction rest as [|b rest IH]; intros acc.
  - cbn [fold_left length]. change (8 * Z.of_nat 0) with 0.
    rewrite Z.shiftl_0_r, Z.lor_0_r. reflexivity.
  - cbn [fold_left length]. rewrite IH. rewrite (IH (Z.lor _ _)).
    rewrite Nat2Z.inj_succ.
    set (L := Z.of_nat (length rest)). assert (0 <= L) by lia.
    set (R := fold_left _ rest 0). set (u := byte.unsigned b).
    clearbody L R u.
    Z.bitblast; rewrite !Z.testbit_neg_r by lia; reflexivity.
Qed.

Lemma beValue_cons v rest :
  beValue (v :: rest)
  = Z.lor (Z.shiftl (byte.unsigned v) (8 * Z.of_nat (length rest)))
          (beValue rest).
Proof.
  unfold beValue at 1. cbn [fold_left]. rewrite fold_be_shift.
  rewrite Z.shiftl_0_l, Z.lor_0_l. reflexivity.
Qed.

Lemma beValue_nonneg l : 0 <= beValue l.
Proof.
  induction l as [|b l IH] using rev_ind; [reflexivity|].
  rewrite beValue_snoc. apply Z.lor_nonneg. split.
  - apply Z.shiftl_nonneg. exact IH.
  - apply byte.unsigned_range.
Qed.

Lemma beValue_testbit_high l :
  forall i, 8 * Z.of_nat (length l) <= i -> Z.testbit (beValue l) i = false.
Proof.
  induction l as [|b l IH] using rev_ind; intros i Hi.
  - apply Z.testbit_0_l.
  - rewrite length_app in Hi. cbn [length] in Hi.
    rewrite beValue_snoc, Z.lor_spec, Z.shiftl_spec by lia.
    rewrite IH by lia. rewrite byte_testbit_high by lia. reflexivity.
Qed.

Lemma beValue_and ip :
  forall mask,
    length ip = length mask ->
    beValue (map (fun p => byte.and (fst p) (snd p)) (combine ip mask))
    = Z.land (beValue ip) (beValue mask).
Proof.
  induction ip as [|a ip IH]; intros [|m mask] Hlen; try discriminate.
  - reflexivity.
  - cbn [combine map fst snd]. rewrite !beValue_cons, IH by (simpl in Hlen; lia).
    rewrite unsigned_byte_and, length_map, length_combine.
    simpl in Hlen. replace (length mask) with (length ip) by lia.
    rewrite Nat.min_id.
    pose proof (beValue_testbit_high ip) as HI.
    pose proof (beValue_testbit_high mask) as HM.
    replace (length mask) with (length ip) in HM by lia.
    set (L := Z.of_nat (length ip)) in *. assert (0 <= L) by lia.
    set (I := beValue ip) in *. set (M := beValue mask) in *.
    set (x := byte.unsigned a). set (y := byte.unsigned m).
    clearbody L I M x y.
    Z.bitblast.
    destruct (Z.ltb_spec l 0).
    + rewrite !(Z.testbit_neg_r _ l) by lia. reflexivity.
    + rewrite HI, HM by lia.
      destruct (Z.testbit x l), (Z.testbit y l); reflexivity.
Qed.

Lemma allZero_beValue l : allZero l = true -> beValue l = 0.
Proof.
  induction l as [|b l IH]; intros H; [reflexivity|].
  simpl in H. apply andb_true_iff in H. destruct H as [Hb Hl].
  apply Byte.byte_dec_bl in Hb. subst b.
  rewrite beValue_cons, IH by assumption.
  change (byte.unsigned Byte.x00) with 0.
  rewrite Z.shiftl_0_l. reflexivity.
Qed.

Lemma leadingOnes_from fuel :
  forall n v,
    leadingOnes fuel n v
    = (n + fst (leadingOnes fuel 0 v), snd (leadingOnes fuel 0 v)).
Proof.
  induction fuel as [|fuel IH]; intros n v; cbn [leadingOnes].
  - cbn [fst snd]. f_equal. lia.
  - destruct (Z.land v 128 =? 0); cbn [fst snd].
    + f_equal. lia.
    + rewrite (IH (n + 1)), (IH (0 + 1)). cbn [fst snd]. f_equal. lia.
Qed.

Lemma leadingOnes_byte (b : byte) :
  snd (leadingOnes 8 0 (byte.unsigned b)) = 0 ->
  0 <= fst (leadingOnes 8 0 (byte.unsigned b)) <= 8 /\
  byte.unsigned b mod 2 ^ (8 - fst (leadingOnes 8 0 (byte.unsigned b))) = 0.
Proof.
  destruct b; vm_compute; intros H; try discriminate H;
    (split; [split; discriminate | reflexivity]).
Qed.

Lemma simpleMaskLengthFrom_spec mask :
  forall n,
    0 <= n ->
    simpleMaskLengthFrom n mask <> -1 ->
    n <= simpleMaskLengthFrom n mask <= n + 8 * Z.of_nat (length mask) /\
    forall i,
      0 <= i < 8 * Z.of_nat (length mask) - (simpleMaskLengthFrom n mask - n) ->
      Z.testbit (beValue mask) i = false.
Proof.
  induction mask as [|v rest IH]; intros n Hn Hr.
  - simpl. split; [lia|]. intros i Hi. lia.
  - cbn [simpleMaskLengthFrom length] in *. rewrite Nat2Z.inj_succ.
    destruct (Byte.eqb v Byte.xff) eqn:Ev.
    + destruct (IH (n + 8) ltac:(lia) Hr) as [Hrange Hbits].
      split; [lia|]. intros i Hi.
      rewrite beValue_cons, Z.lor_spec, Z.shiftl_spec by lia.
      rewrite Hbits by lia. rewrite Z.testbit_neg_r by lia. reflexivity.
    + rewrite leadingOnes_from in *. cbv zeta iota beta in *.
      pose proof (leadingOnes_byte v) as Hv.
      set (c := fst (leadingOnes 8 0 (byte.unsigned v))) in *.
      set (v' := snd (leadingOnes 8 0 (byte.unsigned v))) in *.
      destruct (Z.eqb_spec v' 0) as [E0 | N0]; simpl negb in *; cbv iota in *;
        [|congruence].
      destruct (allZero rest) eqn:Ez; [|congruence].
      destruct (Hv E0) as [Hc Hmod].
      split; [lia|]. intros i Hi.
      rewrite beValue_cons, Z.lor_spec, Z.shiftl_spec by lia.
      rewrite (allZero_beValue rest Ez), Z.testbit_0_l, orb_false_r.
      destruct (Z.ltb_spec (i - 8 * Z.of_nat (length rest)) 0).
      * apply Z.testbit_neg_r. assumption.
      * rewrite <- (Z.mod_pow2_bits_low _ (8 - c)) by lia.
        rewrite Hmod. apply Z.testbit_0_l.
Qed.

Lemma simpleMaskLengthFrom_allFF l1 l2 :
  forall n,
    allFF l1 = true ->
    simpleMaskLengthFrom n (l1 ++ l2)
    = simpleMaskLengthFrom (n + 8 * Z.of_nat (length l1)) l2.
Proof.
  induction l1 as [|b l1 IH]; intros n H.
  - simpl. f_equal. lia.
  - simpl in H. apply andb_true_iff in H. destruct H as [Hb Hl].
    cbn [app simpleMaskLengthFrom length]. rewrite Hb, IH by assumption.
    f_equal. lia.
Qed.

(** The host bits of a subnet: none, or what the ones of the mask leave
    of its length. *)
Lemma hostBits_cases ipnet :
  hostBits ipnet = 0 \/
  (simpleMaskLength (ipnet_Mask ipnet) <> -1 /\
   hostBits ipnet
   = 8 * Z.of_nat (length (ipnet_Mask ipnet))
     - simpleMaskLength (ipnet_Mask ipnet)).
Proof.
  unfold hostBits, IPMask_Size.
  destruct (Z.eqb_spec (simpleMaskLength (ipnet_Mask ipnet)) (-1)).
  - left. reflexivity.
  - right. split; [assumption|]. lia.
Qed.

Lemma hostBits_nonneg ipnet : 0 <= hostBits ipnet.
Proof.
  destruct (hostBits_cases ipnet) as [-> | [Hm ->]]; [lia|].
  destruct (simpleMaskLengthFrom_spec (ipnet_Mask ipnet) 0 ltac:(lia) Hm)
    as [Hr _].
  unfold simpleMaskLength. lia.
Qed.

(** When [IP.Mask] is not nil, the masked address is long enough for
    the host bits, and its host bits are zero. *)
Lemma masked_host_bits ipnet host :
  IP_Mask (ipnet_IP ipnet) (ipnet_Mask ipnet) = Some host ->
  1 <= hostBits ipnet ->
  hostBits ipnet <= 8 * Z.of_nat (length host) /\
  forall i, 0 <= i < hostBits ipnet -> Z.testbit (beValue host) i = false.
Proof.
  intros Hm Hhb.
  destruct (hostBits_cases ipnet) as [E0 | [Hones Ehb]]; [lia|].
  destruct ipnet as [ip mask]. cbn [ipnet_IP ipnet_Mask] in *.
  unfold simpleMaskLength in *. unfold IP_Mask in Hm.
  destruct (Nat.eqb (length mask) IPv6len && Nat.eqb (length ip) IPv4len
            && allFF (firstn 12 mask)) eqn:C1.
  - apply andb_true_iff in C1. destruct C1 as [C1 Hff].
    apply andb_true_iff in C1. destruct C1 as [Lm Li].
    apply Nat.eqb_eq in Lm, Li. unfold IPv6len, IPv4len in *.
    assert (Ls : length (skipn 12 mask) = 4%nat)
      by (rewrite length_skipn; lia).
    assert (Eones : simpleMaskLengthFrom 0 mask
                    = simpleMaskLengthFrom 96 (skipn 12 mask)).
    { rewrite <- (firstn_skipn 12 mask) at 1.
      rewrite simpleMaskLengthFrom_allFF by assumption.
      rewrite length_firstn, Lm. reflexivity. }
    rewrite Eones in Hones, Ehb. rewrite Lm in Ehb.
    set (m' := skipn 12 mask) in *. clearbody m'.
    rewrite Ls, Li in Hm.
    change (Nat.eqb 4 4 && Nat.eqb 4 16) with false in Hm.
    cbn [andb] in Hm. rewrite Li in Hm. cbn [Nat.eqb] in Hm.
    injection Hm as <-.
    destruct (simpleMaskLengthFrom_spec m' 96 ltac:(lia) Hones)
      as [Hr Hbits].
    rewrite Ls in Hr, Hbits.
    rewrite length_map, length_combine, Ls, Li. simpl Nat.min.
    split; [lia|]. intros i Hi.
    rewrite beValue_and by lia. rewrite Z.land_spec, Hbits by lia.
    apply andb_false_r.
  - set (ip' := if Nat.eqb (length mask) IPv4len && Nat.eqb (length ip) IPv6len
                   && bytesEqual (firstn 12 ip) v4InV6Prefix
                then skipn 12 ip else ip) in *.
    destruct (Nat.eqb_spec (length ip') (length mask)) as [El | Nl];
      [|discriminate].
    injection Hm as <-.
    destruct (simpleMaskLengthFrom_spec mask 0 ltac:(lia) Hones) as [Hr Hbits].
    rewrite length_map, length_combine, El, Nat.min_id.
    split; [lia|]. intros i Hi.
    rewrite beValue_and by lia. rewrite Z.land_spec, Hbits by lia.
    apply andb_false_r.
Qed.

Lemma length_orHostBytes r : forall v, length (orHostBytes r v) = length r.
Proof.
  induction r as [|b r IH]; intros v; simpl; [reflexivity|].
  rewrite IH. reflexivity.
Qed.

(** The address built for a host segment of the subnet carries that
    segment as its host portion. *)
Lemma toAddress_hostPortion ipnet host h :
  IP_Mask (ipnet_IP ipnet) (ipnet_Mask ipnet) = Some host ->
  1 <= hostBits ipnet ->
  0 <= h < 2 ^ hostBits ipnet ->
  exists addr,
    toAddress ipnet h = Some addr /\
    length addr = length host /\
    hostPortion ipnet addr = h.
Proof.
  intros Hm Hhb Hh.
  destruct (masked_host_bits ipnet host Hm Hhb) as [Hlen Hbits].
  unfold toAddress. rewrite Hm. eexists. split; [reflexivity|].
  split.
  - rewrite length_rev, length_orHostBytes, length_rev. reflexivity.
  - unfold hostPortion. rewrite beValue_orHostBytes.
    rewrite rev_involutive, length_rev.
    rewrite <- Z.land_ones by lia.
    set (hb := hostBits ipnet) in *.
    set (L := Z.of_nat (length host)) in *.
    set (H := beValue host) in *. clearbody hb L H.
    apply Z.bits_inj'. intros i Hi.
    rewrite Z.land_spec, Z.lor_spec, Z.land_spec.
    rewrite !Z.testbit_ones_nonneg by lia.
    destruct (Z.ltb_spec i hb).
    + rewrite Hbits by lia.
      destruct (Z.ltb_spec i (8 * L)); [|lia].
      rewrite !andb_true_r. reflexivity.
    + rewrite andb_false_r. symmetry.
      rewrite <- (Z.mod_small h (2 ^ hb)) by lia.
      apply Z.mod_pow2_bits_high. lia.
Qed.

(** ** What is sent lies inside the host range *)

Lemma insideHostRange_toAddress ipnet h :
  2 <= hostBits ipnet ->
  0 < h < 2 ^ hostBits ipnet - 1 ->
  insideHostRange ipnet (toAddress ipnet h).
Proof.
  intros Hhb Hh. exists h. split; [exact Hh|]. split; [reflexivity|].
  intros bytes E.
  destruct (IP_Mask (ipnet_IP ipnet) (ipnet_Mask ipnet)) as [host|] eqn:Hm.
  - destruct (toAddress_hostPortion ipnet host h Hm) as (addr & Ea & _ & Hp);
      try lia.
    rewrite Ea in E. injection E as <-. rewrite Hp. lia.
  - unfold toAddress in E. rewrite Hm in E. discriminate.
Qed.

(** A segment that gets to the [select] of the scan loop is a host
    offset other than the first and the last of the subnet, whatever
    the loop variables are. *)
Lemma scanBody_sending hostIP hb st v :
  0 <= hb ->
  snd (Scan.scanBody hostIP hb st) = Some v ->
  0 < v < 2 ^ hb - 1.
Proof.
  intros Hhb. unfold Scan.scanBody.
  set (st0 := if negb (Scan.up st) && negb (Scan.down st) then _ else _).
  set (nextIP := Int64.add hostIP (Scan.offset st0)).
  destruct (Z.leb_spec nextIP 0); [discriminate|].
  rewrite geb_leb_iff.
  destruct (Z.leb_spec (Scan.upperBound hb) nextIP); [discriminate|].
  simpl. intros E. injection E as <-.
  destruct (Z_le_gt_dec hb 63).
  - rewrite upperBound_small in * by lia. lia.
  - rewrite upperBound_large in * by lia. lia.
Qed.

Lemma sent_scanLoop ipnet hostIP hb fuel :
  0 <= hb ->
  forall st env a,
    In a (sent (fst (Scan.scanLoop ipnet hostIP hb fuel st env))) ->
    exists v, 0 < v < 2 ^ hb - 1 /\ a = toAddress ipnet v.
Proof.
  intros Hhb. induction fuel as [|fuel IH]; intros st env a; simpl.
  - intros [].
  - pose proof (scanBody_sending hostIP hb st) as Hv.
    destruct (Scan.scanBody hostIP hb st) as [st' [v|]]; simpl in Hv.
    + destruct env as [|[|] env'].
      * intros [].
      * specialize (IH st' env' a).
        destruct (Scan.scanLoop ipnet hostIP hb fuel st' env') as [tr o].
        simpl in *. intros [<- | Hin].
        -- exists v. split; [apply Hv; [assumption | reflexivity] | reflexivity].
        -- apply IH. exact Hin.
      * intros [].
    + apply IH.
Qed.

(** The draw of the prober, when it does not panic, is a host offset
    other than the first and the last of the subnet. *)
Lemma probe_draw_range hb raw r :
  0 <= hb ->
  Probe.Intn (Probe.drawBound hb) raw = Some r ->
  0 <= r /\ Int64.add r 1 = r + 1 /\ 1 <= r + 1 <= 2 ^ hb - 2.
Proof.
  intros Hhb. unfold Probe.Intn.
  destruct (Z.leb_spec (Probe.drawBound hb) 0) as [Hle | Hgt]; [discriminate|].
  intros E. injection E as <-.
  destruct (Z_le_gt_dec hb 63) as [Hs | Hl].
  - rewrite drawBound_small in * by lia.
    pose proof (Z.mod_pos_bound raw (2 ^ hb - 2) Hgt) as Hm.
    assert (2 ^ hb <= 2 ^ 63) by (apply Z.pow_le_mono_r; lia).
    split; [lia|]. split; [|lia].
    apply wrap64_small. unfold Int64.in_range, Int64.min_int, Int64.max_int.
    lia.
  - rewrite drawBound_large in Hgt by lia. lia.
Qed.

Lemma sent_probeLoop ipnet hb rnd env :
  0 <= hb ->
  forall k a,
    In a (sent (fst (Probe.probeLoop ipnet hb rnd k env))) ->
    exists v, 0 < v < 2 ^ hb - 1 /\ a = toAddress ipnet v.
Proof.
  intros Hhb. induction env as [|c env' IH]; intros k a; simpl.
  - destruct (Probe.Intn _ _); intros [].
  - pose proof (probe_draw_range hb (rnd k)) as Hr.
    destruct (Probe.Intn (Probe.drawBound hb) (rnd k)) as [r|]; [|intros []].
    destruct (Hr r Hhb eq_refl) as (H0 & E1 & H1).
    destruct c; [|intros []].
    specialize (IH (S k) a).
    destruct (Probe.probeLoop ipnet hb rnd (S k) env') as [tr o].
    simpl in *. intros [<- | Hin].
    + exists (r + 1). rewrite E1. split; [lia | reflexivity].
    + apply IH. exact Hin.
Qed.

Lemma sent_awaitQuit err env : sent (fst (awaitQuit err env)) = [].
Proof. unfold awaitQuit. destruct (existsb isClose env); reflexivity. Qed.

(** C2: on a subnet of two host bits or more, every address either
    seeder sends, in any run, is the address of a host offset [h] with
    [0 < h < 2^hostBits - 1]; when the address carries bytes, its host
    portion is [h], neither all zeros (the network address) nor all ones
    (the broadcast address). *)
Theorem sent_inside_host_range (ipnet : IPNet) :
  2 <= hostBits ipnet ->
  (forall phase fuel env a,
      In a (sent (fst (Scan.run {| Scan.ipnet := ipnet |} phase fuel env))) ->
      insideHostRange ipnet a) /\
  (forall rnd phase fuel env a,
      In a (sent (fst (Probe.run {| Probe.ipnet := ipnet |} rnd phase fuel env))) ->
      insideHostRange ipnet a).
Proof.
  intros Hhb. split.
  - intros phase fuel env a. unfold Scan.run. simpl Scan.ipnet.
    destruct (Scan.hostIPOf ipnet) as [hostIP|]; [|intros []].
    destruct (hostBits ipnet <? 2).
    + rewrite sent_awaitQuit. intros [].
    + intros Hin.
      destruct (sent_scanLoop ipnet hostIP (hostBits ipnet) fuel
                  ltac:(lia) _ _ _ Hin) as (v & Hv & ->).
      apply insideHostRange_toAddress; assumption.
  - intros rnd phase fuel env a. unfold Probe.run. simpl Probe.ipnet.
    destruct (hostBits ipnet <? 2).
    + rewrite sent_awaitQuit. intros [].
    + intros Hin.
      destruct (sent_probeLoop ipnet (hostBits ipnet) rnd env
                  ltac:(lia) _ _ Hin) as (v & Hv & ->).
      apply insideHostRange_toAddress; assumption.
Qed.

Lemma sent_inside_host_range_witness :
  2 <= hostBits net24 /\
  insideHostRange net24
    (Some [Byte.xc0; Byte.xa8; Byte.x00; Byte.x65]) /\
  insideHostRange net24
    (Some [Byte.xc0; Byte.xa8; Byte.x00; Byte.xfe]).
Proof.
  assert (H : 2 <= hostBits net24) by (vm_compute; discriminate).
  split; [exact H|].
  destruct (sent_inside_host_range net24 H) as [Hscan Hprobe]. split.
  - apply (Hscan (fun _ => 0) 4%nat [SinkReady; SinkReady; CloseCalled]).
    right. left. reflexivity.
  - apply (Hprobe (fun k => Z.of_nat k * 253) (fun _ => 0) 0%nat
             [SinkReady; SinkReady; CloseCalled]).
    right. left. reflexivity.
Defined.

(** ** The scan origin stays small *)

Lemma Zland_le_r a m : 0 <= a -> 0 <= m -> Z.land a m <= m.
Proof.
  intros Ha Hm. rewrite <- (Z2N.id a), <- (Z2N.id m) at 1 by assumption.
  rewrite <- N2Z.inj_land.
  rewrite <- (Z2N.id m) at 2 by assumption.
  apply N2Z.inj_le. apply N.land_le_r.
Qed.

Lemma hostIPLoop_bounds ip steps :
  forall i hostIP,
    0 <= i ->
    i + Z.of_nat steps <= 8 * Z.of_nat (length ip) ->
    0 <= hostIP <= 2 ^ i - 1 ->
    hostIP <= 128 * i ->
    exists h,
      Scan.hostIPLoop ip steps i hostIP = Some h /\
      0 <= h <= 2 ^ (i + Z.of_nat steps) - 1 /\
      h <= 128 * (i + Z.of_nat steps).
Proof.
  induction steps as [|steps IH]; intros i hostIP Hi Hlen Hacc Hsmall.
  - exists hostIP. simpl. rewrite Z.add_0_r. auto.
  - rewrite Nat2Z.inj_succ in *. cbn [Scan.hostIPLoop].
    rewrite Z.quot_div_nonneg, Z.rem_mod_nonneg by lia.
    pose proof (Z.mod_pos_bound i 8 ltac:(lia)) as Hk.
    assert (Hq : 0 <= i / 8 <= Z.of_nat (length ip) - 1)
      by (Z.div_mod_to_equations; lia).
    unfold index.
    destruct (Z.ltb_spec (Z.of_nat (length ip) - 1 - i / 8) 0); [lia|].
    destruct (nth_error ip (Z.to_nat (Z.of_nat (length ip) - 1 - i / 8)))
      as [b|] eqn:Eb.
    2:{ apply nth_error_None in Eb. lia. }
    rewrite shl_1_small by lia.
    pose proof (byte.unsigned_range b) as Hb.
    assert (Hpk : 0 < 2 ^ (i mod 8)) by (apply Z.pow_pos_nonneg; lia).
    assert (H0 : 0 <= Z.land (byte.unsigned b) (2 ^ (i mod 8)))
      by (apply Z.land_nonneg; lia).
    assert (H1 : Z.land (byte.unsigned b) (2 ^ (i mod 8)) <= 2 ^ (i mod 8))
      by (apply Zland_le_r; lia).
    assert (H2 : 2 ^ (i mod 8) <= 2 ^ 7) by (apply Z.pow_le_mono_r; lia).
    assert (H3 : 2 ^ (i mod 8) <= 2 ^ i)
      by (apply Z.pow_le_mono_r; Z.div_mod_to_equations; lia).
    assert (H4 : 2 ^ (i + 1) = 2 * 2 ^ i)
      by (rewrite Z.pow_add_r by lia; lia).
    change (2 ^ 7) with 128 in H2.
    destruct (IH (i + 1)
                (hostIP + Z.land (byte.unsigned b) (2 ^ (i mod 8))))
      as (h & Eh & Hh1 & Hh2); try lia.
    exists h. split; [exact Eh|].
    replace (i + Z.succ (Z.of_nat steps)) with (i + 1 + Z.of_nat steps) by lia.
    split; assumption.
Qed.

(** The origin of the scan, when the address has room for the host
    bits: it exists, it is a host offset of the subnet, and it stays
    below [128] per host bit. *)
Lemma hostIPOf_bounds ipnet :
  hostBits ipnet <= 8 * Z.of_nat (length (ipnet_IP ipnet)) ->
  exists h,
    Scan.hostIPOf ipnet = Some h /\
    0 <= h <= 2 ^ hostBits ipnet - 1 /\
    h <= 128 * hostBits ipnet.
Proof.
  intros Hlen. pose proof (hostBits_nonneg ipnet) as Hhb.
  unfold Scan.hostIPOf.
  destruct (hostIPLoop_bounds (ipnet_IP ipnet) (Z.to_nat (hostBits ipnet)) 0 0)
    as (h & Eh & Hh1 & Hh2);
    [lia | rewrite Z2Nat.id by lia; lia | simpl; lia | lia |].
  exists h. rewrite Z2Nat.id in * by lia. simpl in *. auto.
Qed.

Lemma mask_fits_hostBits ipnet :
  ~ malformed ipnet ->
  hostBits ipnet <= 8 * Z.of_nat (length (ipnet_IP ipnet)).
Proof.
  unfold malformed. intros Hwf.
  destruct (hostBits_cases ipnet) as [-> | [Hm ->]]; [lia|].
  destruct (simpleMaskLengthFrom_spec (ipnet_Mask ipnet) 0 ltac:(lia) Hm)
    as [Hr _].
  unfold simpleMaskLength. lia.
Qed.

Lemma masked_fits_hostBits ipnet host :
  IP_Mask (ipnet_IP ipnet) (ipnet_Mask ipnet) = Some host ->
  1 <= hostBits ipnet ->
  hostBits ipnet <= 8 * Z.of_nat (length (ipnet_IP ipnet)).
Proof.
  intros Hm Hhb.
  destruct (masked_host_bits ipnet host Hm Hhb) as [Hlen _].
  assert (length host <= length (ipnet_IP ipnet))%nat; [|lia].
  unfold IP_Mask in Hm.
  match type of Hm with
  | (if Nat.eqb (length ?i) (length ?m) then _ else _) = _ =>
      set (ip' := i) in *; set (mask' := m) in *;
      destruct (Nat.eqb_spec (length ip') (length mask')); [|discriminate]
  end.
  injection Hm as <-. rewrite length_map, length_combine.
  assert (length ip' <= length (ipnet_IP ipnet))%nat; [|lia].
  subst ip'.
  match goal with
  | |- context [if ?c then skipn 12 ?x else ?x] => destruct c
  end; [rewrite length_skipn|]; lia.
Qed.

(** ** From passes to runs *)

Lemma scanCandidates_app hostIP hb j1 :
  forall j2 st,
    scanCandidates hostIP hb (j1 + j2) st
    = (fst (scanCandidates hostIP hb j1 st)
         ++ fst (scanCandidates hostIP hb j2
                   (snd (scanCandidates hostIP hb j1 st))),
       snd (scanCandidates hostIP hb j2
              (snd (scanCandidates hostIP hb j1 st)))).
Proof.
  induction j1 as [|j1 IH]; intros j2 st.
  - simpl. destruct (scanCandidates hostIP hb j2 st). reflexivity.
  - cbn [Nat.add scanCandidates].
    destruct (Scan.scanBody hostIP hb st) as [st1 c].
    rewrite IH.
    destruct (scanCandidates hostIP hb j1 st1) as [l1 st2]. cbn [fst snd].
    destruct c; reflexivity.
Qed.

Lemma scanCandidates_reset hostIP hb j st :
  bothDisabled st = true ->
  scanCandidates hostIP hb (S j) st
  = scanCandidates hostIP hb (S j) Scan.scanInit.
Proof.
  intros H. cbn [scanCandidates]. rewrite (scanBody_reset hostIP hb st H).
  reflexivity.
Qed.

(** With a consumer that takes every address, the loop sends the
    addresses of the segments its passes come up with. *)
Lemma scanLoop_sends ipnet hostIP hb j :
  forall st l st',
    scanCandidates hostIP hb j st = (l, st') ->
    forall fuel env,
      Scan.scanLoop ipnet hostIP hb (j + fuel) st
        (repeat SinkReady (length l) ++ env)
      = (map EvSend (map (toAddress ipnet) l)
           ++ fst (Scan.scanLoop ipnet hostIP hb fuel st' env),
         snd (Scan.scanLoop ipnet hostIP hb fuel st' env)).
Proof.
  induction j as [|j IH]; intros st l st' E fuel env.
  - simpl in E. injection E as <- <-. simpl.
    destruct (Scan.scanLoop ipnet hostIP hb fuel st env). reflexivity.
  - cbn [scanCandidates] in E. cbn [Nat.add Scan.scanLoop].
    destruct (Scan.scanBody hostIP hb st) as [st1 c].
    destruct (scanCandidates hostIP hb j st1) as [l1 st2] eqn:E1.
    injection E as <- <-.
    specialize (IH st1 l1 st2 E1 fuel env).
    destruct c as [v|].
    + cbn [length repeat app]. rewrite IH. reflexivity.
    + exact IH.
Qed.

(** With a consumer that takes [k] addresses and then calls [Close],
    the loop sends [k] addresses, reads the quit channel and replies
    nil, provided its passes come up with more than [k] segments. *)
Lemma scanLoop_close ipnet hostIP hb j :
  forall st l st' k,
    scanCandidates hostIP hb j st = (l, st') ->
    (k < length l)%nat ->
    forall fuel rest,
      Scan.scanLoop ipnet hostIP hb (j + fuel) st
        (repeat SinkReady k ++ CloseCalled :: rest)
      = (map EvSend (map (toAddress ipnet) (firstn k l))
           ++ [EvQuit; EvReply None],
         Returned).
Proof.
  induction j as [|j IH]; intros st l st' k E Hk fuel rest.
  - simpl in E. injection E as <- <-. simpl in Hk. lia.
  - cbn [scanCandidates] in E. cbn [Nat.add Scan.scanLoop].
    destruct (Scan.scanBody hostIP hb st) as [st1 c].
    destruct (scanCandidates hostIP hb j st1) as [l1 st2] eqn:E1.
    injection E as <- <-.
    destruct c as [v|].
    + destruct k as [|k].
      * reflexivity.
      * cbn [repeat app firstn map]. simpl in Hk.
        rewrite (IH st1 l1 st2 k E1 ltac:(lia) fuel rest). reflexivity.
    + apply (IH st1 l1 st2 k E1 Hk).
Qed.

Lemma scanLoop_quiet ipnet hostIP hb fuel :
  forall st, fst (Scan.scanLoop ipnet hostIP hb fuel st []) = [].
Proof.
  induction fuel as [|fuel IH]; intros st; simpl; [reflexivity|].
  destruct (Scan.scanBody hostIP hb st) as [st' [v|]]; [reflexivity | apply IH].
Qed.

Lemma sent_sends l tr : sent (map EvSend l ++ tr) = l ++ sent tr.
Proof. induction l as [|a l IH]; simpl; [reflexivity | rewrite IH; reflexivity]. Qed.

Lemma replyOf_sends l tr : replyOf (map EvSend l ++ tr) = replyOf tr.
Proof. induction l as [|a l IH]; simpl; [reflexivity | exact IH]. Qed.

(** A duplicate-free list that holds the integers of [[lo, hi)] has
    [hi - lo] elements. *)
Lemma NoDup_interval_length l lo hi :
  lo <= hi ->
  NoDup l ->
  (forall v, In v l <-> lo <= v < hi) ->
  Z.of_nat (length l) = hi - lo.
Proof.
  intros Hle Hnd Hin.
  set (ref := map (fun i => lo + Z.of_nat i) (seq 0 (Z.to_nat (hi - lo)))).
  assert (Hperm : Permutation l ref).
  { apply NoDup_Permutation; [exact Hnd | |].
    - apply NoDup_map_NoDup_ForallPairs; [|apply seq_NoDup].
      intros x y _ _ E. lia.
    - intros v. rewrite Hin. unfold ref. rewrite in_map_iff. split.
      + intros Hv. exists (Z.to_nat (v - lo)). rewrite in_seq. lia.
      + intros (i & <- & Hi). rewrite in_seq in Hi. lia. }
  rewrite (Permutation_length Hperm). unfold ref.
  rewrite length_map, length_seq. lia.
Qed.

Lemma length_concat_repeat (A : Type) (l : list A) n :
  length (concat (repeat l n)) = (n * length l)%nat.
Proof.
  induction n as [|n IH]; simpl; [reflexivity|].
  rewrite length_app, IH. reflexivity.
Qed.

(** Rounds follow one another: after any number of them the loop has
    come up with the segments of the first round that many times. *)
Lemma rounds hostIP hb j l st1 :
  scanCandidates hostIP hb (S j) Scan.scanInit = (l, st1) ->
  bothDisabled st1 = true ->
  forall n st0,
    bothDisabled st0 = true \/ st0 = Scan.scanInit ->
    exists st',
      scanCandidates hostIP hb (n * S j) st0 = (concat (repeat l n), st').
Proof.
  intros E Hdis. induction n as [|n IH]; intros st0 Hst0.
  - exists st0. reflexivity.
  - cbn [Nat.mul]. rewrite scanCandidates_app.
    assert (E0 : scanCandidates hostIP hb (S j) st0 = (l, st1)).
    { destruct Hst0 as [H | ->]; [|exact E].
      rewrite scanCandidates_reset by exact H. exact E. }
    rewrite E0. cbn [fst snd].
    destruct (IH st1 (or_introl Hdis)) as [st' E'].
    exists st'. rewrite E'. reflexivity.
Qed.

(** ** Subnets of two to 63 host bits *)

(** The first round of the scanner on such a subnet. *)
Lemma scan_round ipnet :
  hostBits ipnet <= 8 * Z.of_nat (length (ipnet_IP ipnet)) ->
  2 <= hostBits ipnet <= 63 ->
  exists hostIP j l st1,
    Scan.hostIPOf ipnet = Some hostIP /\
    scanCandidates hostIP (hostBits ipnet) (S j) Scan.scanInit = (l, st1) /\
    bothDisabled st1 = true /\
    NoDup l /\
    (forall v, In v l <-> 0 < v < 2 ^ hostBits ipnet - 1) /\
    Z.of_nat (length l) = 2 ^ hostBits ipnet - 2.
Proof.
  intros Hfit Hhb.
  destruct (hostIPOf_bounds ipnet Hfit) as (h & Eh & Hh1 & Hh2).
  assert (Hd : 2 * h <= Int64.max_int) by (unfold Int64.max_int; lia).
  destruct (round h (hostBits ipnet) Hhb Hh1 Hd Scan.scanInit
              (or_intror eq_refl))
    as (j & l & st1 & E & Hdis & Hnd & Hin).
  exists h, j, l, st1.
  split; [exact Eh|]. split; [exact E|]. split; [exact Hdis|].
  split; [exact Hnd|]. split; [exact Hin|].
  assert (4 <= 2 ^ hostBits ipnet)
    by (change 4 with (2 ^ 2); apply Z.pow_le_mono_r; lia).
  rewrite (NoDup_interval_length l 1 (2 ^ hostBits ipnet - 1)); try lia.
  - exact Hnd.
  - intros v. rewrite Hin. lia.
Qed.

(** X1: on a subnet of two to 63 host bits whose mask applies to its
    address, a consumer that takes [2 * (2^hostBits - 2)] addresses from
    the scanner gets a round of [2^hostBits - 2] distinct addresses, the
    ones of the host offsets strictly between [0] and [2^hostBits - 1],
    and then the same round once more. *)
Theorem scan_two_rounds (ipnet : IPNet) (host : IP) :
  IP_Mask (ipnet_IP ipnet) (ipnet_Mask ipnet) = Some host ->
  2 <= hostBits ipnet <= 63 ->
  exists (fuel0 : nat) (round : list (option IP)),
    NoDup round /\
    Z.of_nat (length round) = 2 ^ hostBits ipnet - 2 /\
    (forall a, In a round <->
               exists h, 0 < h < 2 ^ hostBits ipnet - 1 /\
                         a = toAddress ipnet h) /\
    forall phase fuel,
      (fuel0 <= fuel)%nat ->
      sent (fst (Scan.run {| Scan.ipnet := ipnet |} phase fuel
                   (repeat SinkReady (2 * length round))))
      = round ++ round.
Proof.
  intros Hm Hhb.
  assert (Hfit := masked_fits_hostBits ipnet host Hm ltac:(lia)).
  destruct (scan_round ipnet Hfit Hhb)
    as (h & j & l & st1 & Eh & E & Hdis & Hnd & Hin & Hlen).
  exists (S j + S j)%nat, (map (toAddress ipnet) l).
  split; [|split; [|split]].
  - apply NoDup_map_NoDup_ForallPairs; [|exact Hnd].
    intros x y Hx Hy Exy. apply Hin in Hx, Hy.
    destruct (toAddress_hostPortion ipnet host x Hm) as (ax & Eax & _ & Hpx);
      try lia.
    destruct (toAddress_hostPortion ipnet host y Hm) as (ay & Eay & _ & Hpy);
      try lia.
    rewrite Eax, Eay in Exy. injection Exy as ->. congruence.
  - rewrite length_map. exact Hlen.
  - intros a. rewrite in_map_iff. split.
    + intros (v & <- & Hv). exists v. split; [apply Hin; exact Hv | reflexivity].
    + intros (v & Hv & ->). exists v. split; [reflexivity | apply Hin; exact Hv].
  - intros phase fuel Hfuel. unfold Scan.run. simpl Scan.ipnet. rewrite Eh.
    destruct (Z.ltb_spec (hostBits ipnet) 2); [lia|].
    assert (E2 : scanCandidates h (hostBits ipnet) (S j + S j) Scan.scanInit
                 = (l ++ l, st1)).
    { rewrite scanCandidates_app, E. cbn [fst snd].
      rewrite scanCandidates_reset, E by exact Hdis. reflexivity. }
    replace fuel with (S j + S j + (fuel - (S j + S j)))%nat by lia.
    replace (repeat SinkReady (2 * length (map (toAddress ipnet) l)))
      with (repeat SinkReady (length (l ++ l)) ++ []).
    2:{ rewrite app_nil_r, length_map, length_app. f_equal. lia. }
    rewrite (scanLoop_sends ipnet h (hostBits ipnet) _ _ _ _ E2).
    cbn [fst]. rewrite scanLoop_quiet, sent_sends.
    simpl sent. rewrite app_nil_r, map_app. reflexivity.
Qed.

Lemma scan_two_rounds_witness :
  exists (fuel0 : nat) (round : list (option IP)),
    Z.of_nat (length round) = 2 ^ hostBits net24 - 2 /\
    forall phase fuel,
      (fuel0 <= fuel)%nat ->
      sent (fst (Scan.run {| Scan.ipnet := net24 |} phase fuel
                   (repeat SinkReady (2 * length round))))
      = round ++ round.
Proof.
  destruct (scan_two_rounds net24 [Byte.xc0; Byte.xa8; Byte.x00; Byte.x00]
              eq_refl)
    as (fuel0 & round & _ & Hlen & _ & Hrun).
  - vm_compute. split; discriminate.
  - exists fuel0, round. split; assumption.
Defined.

(** On a subnet of fewer than two host bits, neither seeder sends
    anything, and [Close] returns the error about the host address
    space. *)
Theorem Close_small_subnet (ipnet : IPNet) :
  ~ malformed ipnet ->
  hostBits ipnet < 2 ->
  forall phase rnd fuel env,
    sent (fst (Scan.run {| Scan.ipnet := ipnet |} phase fuel env)) = [] /\
    sent (fst (Probe.run {| Probe.ipnet := ipnet |} rnd phase fuel env)) = [] /\
    (In CloseCalled env ->
     Close (Scan.run {| Scan.ipnet := ipnet |} phase) fuel env
     = Some (Some (ErrHostSpaceTooSmall (hostBits ipnet))) /\
     Close (Probe.run {| Probe.ipnet := ipnet |} rnd phase) fuel env
     = Some (Some (ErrHostSpaceTooSmall (hostBits ipnet)))).
Proof.
  intros Hwf Hhb phase rnd fuel env.
  destruct (hostIPOf_bounds ipnet (mask_fits_hostBits ipnet Hwf))
    as (h & Eh & _).
  unfold Close, Scan.run, Probe.run. simpl Scan.ipnet. simpl Probe.ipnet.
  rewrite Eh. destruct (Z.ltb_spec (hostBits ipnet) 2); [|lia].
  rewrite sent_awaitQuit. repeat split.
  - unfold awaitQuit.
    assert (Hex : existsb isClose env = true)
      by (apply existsb_exists; exists CloseCalled; auto).
    rewrite Hex. reflexivity.
  - unfold awaitQuit.
    assert (Hex : existsb isClose env = true)
      by (apply existsb_exists; exists CloseCalled; auto).
    rewrite Hex. reflexivity.
Qed.

Lemma Close_small_subnet_witness :
  sent (fst (Scan.run {| Scan.ipnet := net31 |} (fun _ => 0) 0%nat
               [SinkReady; CloseCalled]))
  = [] /\
  Close (Scan.run {| Scan.ipnet := net31 |} (fun _ => 0)) 0%nat
    [SinkReady; CloseCalled]
  = Some (Some (ErrHostSpaceTooSmall 1)).
Proof.
  assert (Hwf : ~ malformed net31) by (unfold malformed; simpl; lia).
  assert (Hhb : hostBits net31 < 2) by (vm_compute; reflexivity).
  destruct (Close_small_subnet net31 Hwf Hhb (fun _ => 0) (fun _ => 0) 0%nat
              [SinkReady; CloseCalled]) as (H1 & _ & H2).
  split; [exact H1|]. apply H2. right. left. reflexivity.
Defined.

Lemma probeLoop_close ipnet hb rnd :
  2 <= hb <= 63 ->
  forall k i rest,
    replyOf (fst (Probe.probeLoop ipnet hb rnd i
                    (repeat SinkReady k ++ CloseCalled :: rest)))
    = Some None.
Proof.
  intros Hhb.
  assert (Hpos : 0 < Probe.drawBound hb).
  { rewrite drawBound_small by lia.
    assert (2 ^ 2 <= 2 ^ hb) by (apply Z.pow_le_mono_r; lia). lia. }
  induction k as [|k IH]; intros i rest; simpl; unfold Probe.Intn;
    destruct (Z.leb_spec (Probe.drawBound hb) 0); try lia.
  - reflexivity.
  - specialize (IH (S i) rest).
    destruct (Probe.probeLoop ipnet hb rnd (S i)
                (repeat SinkReady k ++ CloseCalled :: rest)) as [tr o].
    exact IH.
Qed.

(** X3: on a subnet of two to 63 host bits, [Close] returns nil after
    the consumer took any number [k] of addresses: from the scanner once it
    has run long enough to get to its next [select], from the prober at
    once. *)
Theorem Close_graceful (ipnet : IPNet) :
  ~ malformed ipnet ->
  2 <= hostBits ipnet <= 63 ->
  forall k rest,
    (exists fuel0, forall phase fuel,
        (fuel0 <= fuel)%nat ->
        Close (Scan.run {| Scan.ipnet := ipnet |} phase) fuel
          (repeat SinkReady k ++ CloseCalled :: rest)
        = Some None) /\
    (forall rnd phase fuel,
        Close (Probe.run {| Probe.ipnet := ipnet |} rnd phase) fuel
          (repeat SinkReady k ++ CloseCalled :: rest)
        = Some None).
Proof.
  intros Hwf Hhb k rest. split.
  - destruct (scan_round ipnet (mask_fits_hostBits ipnet Hwf) Hhb)
      as (h & j & l & st1 & Eh & E & Hdis & Hnd & Hin & Hlen).
    destruct (rounds h (hostBits ipnet) j l st1 E Hdis (S k) Scan.scanInit
                (or_intror eq_refl)) as [st' En].
    assert (Hk : (k < length (concat (repeat l (S k))))%nat).
    { rewrite length_concat_repeat.
      assert (4 <= 2 ^ hostBits ipnet)
        by (change 4 with (2 ^ 2); apply Z.pow_le_mono_r; lia).
      assert (1 <= length l)%nat by lia. nia. }
    exists (S k * S j)%nat. intros phase fuel Hfuel.
    unfold Close, Scan.run. simpl Scan.ipnet. rewrite Eh.
    destruct (Z.ltb_spec (hostBits ipnet) 2); [lia|].
    replace fuel with (S k * S j + (fuel - S k * S j))%nat by lia.
    rewrite (scanLoop_close ipnet h (hostBits ipnet) _ _ _ _ k En Hk).
    cbn [fst]. rewrite replyOf_sends. reflexivity.
  - intros rnd phase fuel. unfold Close, Probe.run. simpl Probe.ipnet.
    destruct (Z.ltb_spec (hostBits ipnet) 2); [lia|].
    apply probeLoop_close. exact Hhb.
Qed.

Lemma Close_graceful_witness :
  (exists fuel0, forall phase fuel,
      (fuel0 <= fuel)%nat ->
      Close (Scan.run {| Scan.ipnet := net30 |} phase) fuel
        (repeat SinkReady 4 ++ [CloseCalled])
      = Some None) /\
  Close (Probe.run {| Probe.ipnet := net30 |} (fun _ => 7) (fun _ => 0)) 0%nat
    (repeat SinkReady 4 ++ [CloseCalled])
  = Some None.
Proof.
  assert (Hwf : ~ malformed net30) by (unfold malformed; simpl; lia).
  assert (Hhb : 2 <= hostBits net30 <= 63) by (vm_compute; split; discriminate).
  destruct (Close_graceful net30 Hwf Hhb 4 []) as [H1 H2].
  split; [exact H1 | apply H2].
Defined.

(** X5: on a subnet of two to 63 host bits the draw of the prober never
    panics: the argument of [rand.Intn] is [2^hostBits - 2], which is
    positive, and the host offset drawn lies in [[1, 2^hostBits - 2]]. *)
Theorem probe_draw_defined (hb raw : Z) :
  2 <= hb <= 63 ->
  Probe.drawBound hb = 2 ^ hb - 2 /\
  0 < Probe.drawBound hb /\
  exists r,
    Probe.Intn (Probe.drawBound hb) raw = Some r /\
    1 <= Int64.add r 1 <= 2 ^ hb - 2.
Proof.
  intros Hhb.
  assert (Hpos : 0 < Probe.drawBound hb).
  { rewrite drawBound_small by lia.
    assert (2 ^ 2 <= 2 ^ hb) by (apply Z.pow_le_mono_r; lia). lia. }
  split; [apply drawBound_small; lia|]. split; [exact Hpos|].
  unfold Probe.Intn at 1.
  destruct (Z.leb_spec (Probe.drawBound hb) 0); [lia|].
  eexists. split; [reflexivity|].
  destruct (probe_draw_range hb raw (raw mod Probe.drawBound hb))
    as (_ & -> & Hr).
  - lia.
  - unfold Probe.Intn. destruct (Z.leb_spec (Probe.drawBound hb) 0); [lia|].
    reflexivity.
  - exact Hr.
Qed.

Lemma probe_draw_defined_witness :
  exists r,
    Probe.Intn (Probe.drawBound 8) 1000 = Some r /\
    1 <= Int64.add r 1 <= 2 ^ 8 - 2.
Proof.
  destruct (probe_draw_defined 8 1000 ltac:(lia)) as (_ & _ & H). exact H.
Defined.

(** ** The scan origin on subnets of at most eight host bits *)

Lemma land_ones_succ (b : byte) i :
  0 <= i < 8 ->
  Z.land (byte.unsigned b) (Z.ones (i + 1))
  = Z.land (byte.unsigned b) (Z.ones i) + Z.land (byte.unsigned b) (2 ^ i).
Proof.
  intros Hi.
  assert (Hc : i = 0 \/ i = 1 \/ i = 2 \/ i = 3 \/ i = 4 \/ i = 5 \/ i = 6 \/ i = 7)
    by lia.
  destruct Hc as [-> | [-> | [-> | [-> | [-> | [-> | [-> | ->]]]]]]];
    destruct b; reflexivity.
Qed.

Lemma hostIPLoop_last_byte l b steps :
  forall i hostIP,
    0 <= i ->
    i + Z.of_nat steps <= 8 ->
    Scan.hostIPLoop (l ++ [b]) steps i hostIP
    = Some (hostIP
            + Z.land (byte.unsigned b) (Z.ones (i + Z.of_nat steps))
            - Z.land (byte.unsigned b) (Z.ones i)).
Proof.
  induction steps as [|steps IH]; intros i hostIP Hi Hle.
  - simpl. rewrite Z.add_0_r. f_equal. lia.
  - rewrite Nat2Z.inj_succ in *. cbn [Scan.hostIPLoop].
    rewrite Z.quot_div_nonneg, Z.rem_mod_nonneg by lia.
    rewrite Z.div_small, Z.mod_small by lia.
    rewrite length_app. cbn [length]. unfold index.
    destruct (Z.ltb_spec (Z.of_nat (length l + 1) - 1 - 0) 0); [lia|].
    replace (Z.to_nat (Z.of_nat (length l + 1) - 1 - 0)) with (length l) by lia.
    rewrite nth_error_app2, Nat.sub_diag by lia. cbn [nth_error].
    rewrite shl_1_small by lia.
    rewrite IH by lia. f_equal.
    replace (i + Z.succ (Z.of_nat steps)) with (i + 1 + Z.of_nat steps) by lia.
    rewrite (land_ones_succ b i) by lia. lia.
Qed.

(** X7: where no host bit lies beyond the last byte of the address, the
    origin of the scan is the host's own offset in the subnet. *)
Theorem scan_origin_small_subnet (ipnet : IPNet) :
  ~ malformed ipnet ->
  hostBits ipnet <= 8 ->
  Scan.hostIPOf ipnet = Some (ownHostOffset_spec ipnet).
Proof.
  intros Hwf Hhb. pose proof (hostBits_nonneg ipnet) as H0.
  pose proof (mask_fits_hostBits ipnet Hwf) as Hfit.
  unfold Scan.hostIPOf, ownHostOffset_spec.
  destruct (Z.eq_dec (hostBits ipnet) 0) as [E0 | N0].
  - rewrite E0. simpl. rewrite Z.mod_1_r. reflexivity.
  - destruct (exists_last (l := ipnet_IP ipnet)) as (l & b & ->).
    { intros E. rewrite E in Hfit. simpl in Hfit. lia. }
    rewrite hostIPLoop_last_byte by lia.
    rewrite Z2Nat.id by lia. f_equal.
    change (Z.ones 0) with 0. rewrite Z.land_0_r.
    rewrite beValue_snoc, <- Z.land_ones by lia.
    set (hb := hostBits ipnet) in *. set (B := beValue l).
    set (u := byte.unsigned b). clearbody hb B u.
    rewrite Z.add_0_l, Z.add_0_l, Z.sub_0_r.
    apply Z.bits_inj'. intros i Hi.
    rewrite !Z.land_spec, Z.lor_spec, Z.testbit_ones_nonneg by lia.
    destruct (Z.ltb_spec i hb).
    + rewrite Z.shiftl_spec_low by lia. reflexivity.
    + rewrite !andb_false_r. reflexivity.
Qed.

Lemma scan_origin_small_subnet_witness :
  Scan.hostIPOf net24 = Some (ownHostOffset_spec net24).
Proof.
  apply scan_origin_small_subnet.
  - unfold malformed; simpl; lia.
  - vm_compute. discriminate.
Defined.

(** ** Starting never fails *)

(** C9: [Start] returns nil whatever the subnet, all it does being to
    hand [run] to a new goroutine; on a subnet of fewer than two host
    bits the failure comes out of the later [Close]. *)
Theorem Start_returns_nil :
  (forall (s : Scan.scanSeeder) (phase : phaseCell),
      Scan.Start s phase = (Scan.run s phase, None)) /\
  (forall (s : Probe.probeSeeder) (rnd : nat -> Z) (phase : phaseCell),
      Probe.Start s rnd phase = (Probe.run s rnd phase, None)) /\
  (forall ipnet phase rnd fuel env,
      ~ malformed ipnet ->
      hostBits ipnet < 2 ->
      In CloseCalled env ->
      snd (Scan.Start {| Scan.ipnet := ipnet |} phase) = None /\
      Close (fst (Scan.Start {| Scan.ipnet := ipnet |} phase)) fuel env
      = Some (Some (ErrHostSpaceTooSmall (hostBits ipnet))) /\
      snd (Probe.Start {| Probe.ipnet := ipnet |} rnd phase) = None /\
      Close (fst (Probe.Start {| Probe.ipnet := ipnet |} rnd phase)) fuel env
      = Some (Some (ErrHostSpaceTooSmall (hostBits ipnet)))).
Proof.
  split; [reflexivity|]. split; [reflexivity|].
  intros ipnet phase rnd fuel env Hwf Hhb Hin.
  destruct (Close_small_subnet ipnet Hwf Hhb phase rnd fuel env)
    as (_ & _ & HC).
  destruct (HC Hin) as [Hs Hp].
  split; [reflexivity|]. split; [exact Hs|]. split; [reflexivity | exact Hp].
Qed.

Lemma Start_returns_nil_witness :
  snd (Scan.Start {| Scan.ipnet := net31 |} (fun _ => 0)) = None /\
  Close (fst (Scan.Start {| Scan.ipnet := net31 |} (fun _ => 0))) 0%nat
    [CloseCalled]
  = Some (Some (ErrHostSpaceTooSmall (hostBits net31))).
Proof.
  destruct Start_returns_nil as (_ & _ & H).
  destruct (H net31 (fun _ => 0) (fun _ => 0) 0%nat [CloseCalled])
    as (H1 & H2 & _).
  - unfold malformed; simpl; lia.
  - vm_compute. reflexivity.
  - left. reflexivity.
  - split; assumption.
Defined.

(** ** The scenarios of the test suite *)

(** [192.168.0.100/30]: four pulls give two addresses, each twice. *)
Example scan_slash_30 :
  sent (fst (Scan.run {| Scan.ipnet := net30 |} (fun _ => 0) 10%nat
               (repeat SinkReady 4)))
  = [Some [Byte.xc0; Byte.xa8; Byte.x00; Byte.x65];
     Some [Byte.xc0; Byte.xa8; Byte.x00; Byte.x66];
     Some [Byte.xc0; Byte.xa8; Byte.x00; Byte.x65];
     Some [Byte.xc0; Byte.xa8; Byte.x00; Byte.x66]].
Proof. reflexivity. Qed.

(** [192.168.0.100/31]: no address, and the error at [Close]. *)
Example scan_slash_31 :
  Scan.run {| Scan.ipnet := net31 |} (fun _ => 0) 8%nat [SinkReady; CloseCalled]
  = ([EvQuit; EvReply (Some (ErrHostSpaceTooSmall 1))], Returned).
Proof. reflexivity. Qed.

(** [192.168.0.100/24] as the test resolves it, a 16-byte IPv4-in-IPv6
    address under a 4-byte mask: the scan goes up and down from
    [.100]. *)
Example scan_slash_24_mapped :
  sent (fst (Scan.run
               {| Scan.ipnet :=
                   {| ipnet_IP := v4InV6Prefix ++ ip_192_168_0_100;
                      ipnet_Mask := mask24 |} |}
               (fun _ => 0) 3%nat (repeat SinkReady 3)))
  = [Some [Byte.xc0; Byte.xa8; Byte.x00; Byte.x64];
     Some [Byte.xc0; Byte.xa8; Byte.x00; Byte.x65];
     Some [Byte.xc0; Byte.xa8; Byte.x00; Byte.x63]].
Proof. reflexivity. Qed.

(** ** Masks built by [CIDRMask] *)

Lemma CIDRMask_Size_nat bits n :
  bits = 32 \/ bits = 128 ->
  (n <= Z.to_nat bits)%nat ->
  exists m, CIDRMask (Z.of_nat n) bits = Some m /\
            IPMask_Size m = (Z.of_nat n, bits) /\
            Z.of_nat (length m) = bits / 8.
Proof.
  intros Hb Hn.
  assert (Hall : forallb
            (fun k => match CIDRMask (Z.of_nat k) bits with
                      | Some m =>
                          (fst (IPMask_Size m) =? Z.of_nat k)
                          && (snd (IPMask_Size m) =? bits)
                          && (Z.of_nat (length m) =? bits / 8)
                      | None => false
                      end)
            (seq 0 (S (Z.to_nat bits))) = true).
  { destruct Hb as [-> | ->]; vm_compute; reflexivity. }
  rewrite forallb_forall in Hall.
  specialize (Hall n). rewrite in_seq in Hall. specialize (Hall ltac:(lia)).
  destruct (CIDRMask (Z.of_nat n) bits) as [m|]; [|discriminate].
  exists m. split; [reflexivity|].
  apply andb_true_iff in Hall. destruct Hall as [Hall H3].
  apply andb_true_iff in Hall. destruct Hall as [H1 H2].
  apply Z.eqb_eq in H1, H2, H3.
  split; [|exact H3].
  destruct (IPMask_Size m). simpl in *. congruence.
Qed.

(** X14: [net.CIDRMask(ones, bits)] is a mask exactly when [bits] is 32
    or 128 and [0 <= ones <= bits], and nil otherwise; the mask has
    [bits / 8] bytes, [Size] gives back [(ones, bits)], and a subnet
    under it has [bits - ones] host bits. *)
Theorem CIDRMask_Size_roundtrip (ip : IP) (ones bits : Z) :
  ((bits = 32 \/ bits = 128) /\ 0 <= ones <= bits ->
   exists m,
     CIDRMask ones bits = Some m /\
     Z.of_nat (length m) = bits / 8 /\
     IPMask_Size m = (ones, bits) /\
     hostBits {| ipnet_IP := ip; ipnet_Mask := m |} = bits - ones) /\
  (~ ((bits = 32 \/ bits = 128) /\ 0 <= ones <= bits) ->
   CIDRMask ones bits = None).
Proof.
  split.
  - intros [Hb Ho].
    destruct (CIDRMask_Size_nat bits (Z.to_nat ones) Hb) as (m & Em & Es & El).
    { destruct Hb as [-> | ->]; lia. }
    rewrite Z2Nat.id in * by lia.
    exists m. split; [exact Em|]. split; [exact El|]. split; [exact Es|].
    unfold hostBits. simpl ipnet_Mask. rewrite Es. reflexivity.
  - intros Hn. unfold CIDRMask.
    change (8 * Z.of_nat IPv4len) with 32. change (8 * Z.of_nat IPv6len) with 128.
    destruct (Z.eqb_spec bits 32); destruct (Z.eqb_spec bits 128);
      simpl; try reflexivity;
      destruct (Z.ltb_spec ones 0); simpl; try reflexivity;
      rewrite Z.gtb_ltb; destruct (Z.ltb_spec bits ones); try reflexivity; lia.
Qed.

Lemma CIDRMask_Size_roundtrip_witness :
  exists m,
    CIDRMask 20 32 = Some m /\
    IPMask_Size m = (20, 32) /\
    hostBits {| ipnet_IP := ip_192_168_1_100; ipnet_Mask := m |} = 32 - 20.
Proof.
  destruct (CIDRMask_Size_roundtrip ip_192_168_1_100 20 32) as [H _].
  destruct H as (m & Em & _ & Es & Eh).
  - split; [left; reflexivity | lia].
  - exists m. auto.
Defined.

(** ** Addresses inside the subnet *)

Lemma beValue_inj l1 :
  forall l2, length l1 = length l2 -> beValue l1 = beValue l2 -> l1 = l2.
Proof.
  induction l1 as [|a l1 IH]; intros [|b l2] Hlen E; try discriminate;
    [reflexivity|].
  simpl in Hlen. injection Hlen as Hlen.
  rewrite !beValue_cons in E. rewrite <- Hlen in E.
  set (L := 8 * Z.of_nat (length l1)) in *.
  assert (HL : 0 <= L) by (unfold L; lia).
  pose proof (beValue_testbit_high l1) as H1.
  pose proof (beValue_testbit_high l2) as H2. rewrite <- Hlen in H2.
  fold L in H1, H2.
  assert (Hbit : forall i, 0 <= i ->
            Z.testbit (Z.lor (Z.shiftl (byte.unsigned a) L) (beValue l1)) i
            = Z.testbit (Z.lor (Z.shiftl (byte.unsigned b) L) (beValue l2)) i)
    by (intros; rewrite E; reflexivity).
  f_equal.
  - apply byte.unsigned_inj. apply Z.bits_inj'. intros i Hi.
    specialize (Hbit (i + L) ltac:(lia)).
    rewrite !Z.lor_spec, !Z.shiftl_spec, H1, H2 in Hbit by lia.
    rewrite !orb_false_r in Hbit.
    replace (i + L - L) with i in Hbit by lia. exact Hbit.
  - apply IH; [exact Hlen|]. apply Z.bits_inj'. intros i Hi.
    destruct (Z.ltb_spec i L).
    + specialize (Hbit i Hi).
      rewrite !Z.lor_spec, !Z.shiftl_spec, !(Z.testbit_neg_r _ (i - L)) in Hbit
        by lia.
      exact Hbit.
    + rewrite H1, H2 by lia. reflexivity.
Qed.

Lemma leadingOnes_byte_high (b : byte) :
  snd (leadingOnes 8 0 (byte.unsigned b)) = 0 ->
  forall j, 8 - fst (leadingOnes 8 0 (byte.unsigned b)) <= j < 8 ->
            Z.testbit (byte.unsigned b) j = true.
Proof.
  intros H j Hj.
  assert (Hc : j < 0 \/ j = 0 \/ j = 1 \/ j = 2 \/ j = 3 \/ j = 4 \/ j = 5
               \/ j = 6 \/ j = 7) by lia.
  destruct Hc as [Hn | Hc].
  - pose proof (leadingOnes_byte b H) as [Hr _]. lia.
  - revert H Hj.
    destruct Hc as [-> | [-> | [-> | [-> | [-> | [-> | [-> | ->]]]]]]];
      destruct b; vm_compute; intros H Hj; try reflexivity;
      try discriminate H; exfalso;
      destruct Hj as [Hj1 Hj2]; apply Hj1; reflexivity.
Qed.

Lemma allFF_byte_bits (b : byte) j :
  0 <= j < 8 -> Z.testbit (byte.unsigned Byte.xff) j = true.
Proof.
  intros Hj. change (byte.unsigned Byte.xff) with (Z.ones 8).
  rewrite Z.testbit_ones_nonneg by lia. apply Z.ltb_lt. lia.
Qed.

Lemma simpleMaskLengthFrom_ones mask :
  forall n,
    0 <= n ->
    simpleMaskLengthFrom n mask <> -1 ->
    forall i,
      8 * Z.of_nat (length mask) - (simpleMaskLengthFrom n mask - n) <= i
        < 8 * Z.of_nat (length mask) ->
      Z.testbit (beValue mask) i = true.
Proof.
  induction mask as [|v rest IH]; intros n Hn Hr i Hi.
  - simpl in Hi. lia.
  - pose proof (simpleMaskLengthFrom_spec (v :: rest) n Hn Hr) as [Hrange _].
    cbn [simpleMaskLengthFrom length] in *. rewrite Nat2Z.inj_succ in *.
    rewrite beValue_cons, Z.lor_spec.
    destruct (Byte.eqb v Byte.xff) eqn:Ev.
    + apply Byte.byte_dec_bl in Ev. subst v.
      destruct (Z.ltb_spec i (8 * Z.of_nat (length rest))).
      * rewrite (IH (n + 8) ltac:(lia) Hr i) by lia. apply orb_true_r.
      * rewrite Z.shiftl_spec by lia.
        rewrite (allFF_byte_bits Byte.xff) by lia. reflexivity.
    + rewrite leadingOnes_from in *. cbv zeta iota beta in *.
      pose proof (leadingOnes_byte_high v) as Hv.
      set (c := fst (leadingOnes 8 0 (byte.unsigned v))) in *.
      set (v' := snd (leadingOnes 8 0 (byte.unsigned v))) in *.
      destruct (Z.eqb_spec v' 0) as [E0 | N0]; simpl negb in *; cbv iota in *;
        [|congruence].
      destruct (allZero rest) eqn:Ez; [|congruence].
      rewrite Z.shiftl_spec by lia. rewrite Hv by lia. reflexivity.
Qed.

(** How [IP.Mask] pairs an address with a mask, when it does: with the
    last bytes of one of them or with both as they are; the host bits
    of the mask it uses are zero, and it pairs every address of that
    length the same way. *)
Lemma IP_Mask_shape ipnet host :
  IP_Mask (ipnet_IP ipnet) (ipnet_Mask ipnet) = Some host ->
  1 <= hostBits ipnet ->
  exists ip' mask',
    length ip' = length mask' /\
    host = map (fun p => byte.and (fst p) (snd p)) (combine ip' mask') /\
    hostBits ipnet <= 8 * Z.of_nat (length mask') /\
    (forall i, 0 <= i < hostBits ipnet ->
               Z.testbit (beValue mask') i = false) /\
    (forall a : IP, length a = length mask' ->
               IP_Mask a (ipnet_Mask ipnet)
               = Some (map (fun p => byte.and (fst p) (snd p))
                           (combine a mask'))) /\
    (ip' = ipnet_IP ipnet \/
     (length (ipnet_IP ipnet) = 16%nat /\ ip' = skipn 12 (ipnet_IP ipnet))) /\
    (forall i, hostBits ipnet <= i < 8 * Z.of_nat (length mask') ->
               Z.testbit (beValue mask') i = true).
Proof.
  intros Hm Hhb.
  destruct (hostBits_cases ipnet) as [E0 | [Hones Ehb]]; [lia|].
  destruct ipnet as [ip mask]. cbn [ipnet_IP ipnet_Mask] in *.
  unfold simpleMaskLength in *. pose proof Hm as Hm0. unfold IP_Mask in Hm.
  destruct (Nat.eqb (length mask) IPv6len && Nat.eqb (length ip) IPv4len
            && allFF (firstn 12 mask)) eqn:C1.
  - clear Hm. rename Hm0 into Hm.
    apply andb_true_iff in C1. destruct C1 as [C1 Hff].
    apply andb_true_iff in C1. destruct C1 as [Lm Li].
    apply Nat.eqb_eq in Lm, Li. unfold IPv6len, IPv4len in *.
    assert (Ls : length (skipn 12 mask) = 4%nat)
      by (rewrite length_skipn; lia).
    assert (Eones : simpleMaskLengthFrom 0 mask
                    = simpleMaskLengthFrom 96 (skipn 12 mask)).
    { rewrite <- (firstn_skipn 12 mask) at 1.
      rewrite simpleMaskLengthFrom_allFF by assumption.
      rewrite length_firstn, Lm. reflexivity. }
    rewrite Eones in Hones, Ehb. rewrite Lm in Ehb.
    assert (Hshape : forall a : IP, length a = 4%nat ->
              IP_Mask a mask
              = Some (map (fun p => byte.and (fst p) (snd p))
                          (combine a (skipn 12 mask)))).
    { intros a La. unfold IP_Mask, IPv6len, IPv4len.
      rewrite Lm, La, Hff. cbn [Nat.eqb andb]. rewrite Ls.
      cbn [Nat.eqb andb]. rewrite La. reflexivity. }
    set (m' := skipn 12 mask) in *. clearbody m'.
    rewrite (Hshape ip Li) in Hm. injection Hm as <-.
    destruct (simpleMaskLengthFrom_spec m' 96 ltac:(lia) Hones) as [Hr Hbits].
    pose proof (simpleMaskLengthFrom_ones m' 96 ltac:(lia) Hones) as Hhigh.
    rewrite Ls in Hr, Hbits, Hhigh.
    exists ip, m'. rewrite Ls.
    split; [exact Li|]. split; [reflexivity|]. split; [lia|].
    split; [intros i Hi; apply Hbits; lia|]. split; [exact Hshape|].
    split; [left; reflexivity|]. intros i Hi. apply Hhigh. lia.
  - clear Hm0.
    set (ip' := if Nat.eqb (length mask) IPv4len && Nat.eqb (length ip) IPv6len
                   && bytesEqual (firstn 12 ip) v4InV6Prefix
                then skipn 12 ip else ip) in *.
    destruct (Nat.eqb_spec (length ip') (length mask)) as [El | Nl];
      [|discriminate].
    injection Hm as <-.
    destruct (simpleMaskLengthFrom_spec mask 0 ltac:(lia) Hones) as [Hr Hbits].
    pose proof (simpleMaskLengthFrom_ones mask 0 ltac:(lia) Hones) as Hhigh.
    exists ip', mask.
    split; [exact El|]. split; [reflexivity|]. split; [lia|].
    split; [intros i Hi; apply Hbits; lia|].
    split; [|split].
    2:{ subst ip'.
        destruct (Nat.eqb (length mask) IPv4len && Nat.eqb (length ip) IPv6len
                  && bytesEqual (firstn 12 ip) v4InV6Prefix) eqn:C2;
          [|left; reflexivity].
        right. split; [|reflexivity].
        apply andb_true_iff in C2. destruct C2 as [C2 _].
        apply andb_true_iff in C2. destruct C2 as [_ C2].
        apply Nat.eqb_eq in C2. exact C2. }
    2:{ intros i Hi. apply Hhigh. lia. }
    intros a La. unfold IP_Mask.
    assert (D1 : Nat.eqb (length mask) IPv6len && Nat.eqb (length a) IPv4len
                 = false).
    { rewrite La. unfold IPv6len, IPv4len.
      destruct (Nat.eqb_spec (length mask) 16) as [-> |]; reflexivity. }
    rewrite D1. cbn [andb].
    assert (D2 : Nat.eqb (length mask) IPv4len && Nat.eqb (length a) IPv6len
                 = false).
    { rewrite La. unfold IPv6len, IPv4len.
      destruct (Nat.eqb_spec (length mask) 4) as [-> |]; reflexivity. }
    rewrite D2. cbn [andb]. rewrite La, Nat.eqb_refl. reflexivity.
Qed.

Lemma toAddress_value ipnet host h :
  IP_Mask (ipnet_IP ipnet) (ipnet_Mask ipnet) = Some host ->
  1 <= hostBits ipnet ->
  0 <= h < 2 ^ hostBits ipnet ->
  exists addr,
    toAddress ipnet h = Some addr /\
    length addr = length host /\
    beValue addr = beValue host + h /\
    IP_Mask addr (ipnet_Mask ipnet) = Some host.
Proof.
  intros Hm Hhb Hh.
  destruct (IP_Mask_shape ipnet host Hm Hhb)
    as (ip' & mask' & Hlen & Ehost & Hfit & Hbits & Hshape & _).
  unfold toAddress. rewrite Hm. eexists. split; [reflexivity|].
  set (addr := rev (orHostBytes (rev host) h)).
  assert (Lh : length host = length mask').
  { rewrite Ehost, length_map, length_combine. lia. }
  assert (La : length addr = length host).
  { unfold addr. rewrite length_rev, length_orHostBytes, length_rev.
    reflexivity. }
  assert (EH : beValue host = Z.land (beValue ip') (beValue mask')).
  { rewrite Ehost. apply beValue_and. exact Hlen. }
  assert (Hpow : 2 ^ hostBits ipnet <= 2 ^ (8 * Z.of_nat (length host))).
  { apply Z.pow_le_mono_r; lia. }
  assert (Hhbits : forall i, hostBits ipnet <= i -> Z.testbit h i = false).
  { intros i Hi. rewrite <- (Z.mod_small h (2 ^ hostBits ipnet)) by lia.
    apply Z.mod_pow2_bits_high. lia. }
  assert (EA : beValue addr = Z.lor (beValue host) h).
  { unfold addr. rewrite beValue_orHostBytes, rev_involutive, length_rev.
    rewrite Z.land_ones by lia. rewrite Z.mod_small by lia. reflexivity. }
  split; [exact La|]. split.
  - rewrite EA. symmetry.
    assert (Hdisj : Z.land (beValue host) h = 0).
    { apply Z.bits_inj'. intros i Hi.
      rewrite Z.land_spec, Z.testbit_0_l, EH, Z.land_spec.
      destruct (Z.ltb_spec i (hostBits ipnet)).
      - rewrite Hbits by lia. rewrite andb_false_r. reflexivity.
      - rewrite Hhbits by lia. apply andb_false_r. }
    rewrite Z.add_nocarry_lxor by exact Hdisj.
    apply Z.lxor_lor. exact Hdisj.
  - rewrite Hshape by lia. apply (f_equal (@Some IP)).
    apply beValue_inj.
    + rewrite length_map, length_combine. lia.
    + rewrite beValue_and by lia. rewrite EA, EH.
      apply Z.bits_inj'. intros i Hi.
      rewrite !Z.land_spec, Z.lor_spec, Z.land_spec.
      destruct (Z.ltb_spec i (hostBits ipnet)).
      * rewrite Hbits by lia. rewrite !andb_false_r. reflexivity.
      * rewrite Hhbits by lia. rewrite orb_false_r.
        destruct (Z.testbit (beValue ip') i), (Z.testbit (beValue mask') i);
          reflexivity.
Qed.

(** X11: when [IP.Mask] is not nil, the address built for a host offset
    [h] below [2^hostBits] has the length of the masked address and is,
    read as a big-endian number, the network address plus [h]. *)
Theorem toAddress_adds_offset (ipnet : IPNet) (host : IP) (h : Z) :
  IP_Mask (ipnet_IP ipnet) (ipnet_Mask ipnet) = Some host ->
  1 <= hostBits ipnet ->
  0 <= h < 2 ^ hostBits ipnet ->
  exists addr,
    toAddress ipnet h = Some addr /\
    length addr = length host /\
    beValue addr = beValue host + h.
Proof.
  intros Hm Hhb Hh.
  destruct (toAddress_value ipnet host h Hm Hhb Hh) as (addr & E & L & V & _).
  exists addr. auto.
Qed.

Lemma toAddress_adds_offset_witness :
  exists addr,
    toAddress net20 356 = Some addr /\
    length addr = 4%nat /\
    beValue addr = beValue [Byte.xc0; Byte.xa8; Byte.x00; Byte.x00] + 356.
Proof.
  apply (toAddress_adds_offset net20 [Byte.xc0; Byte.xa8; Byte.x00; Byte.x00] 356).
  - reflexivity.
  - vm_compute. discriminate.
  - vm_compute. split; [discriminate | reflexivity].
Defined.

(** X12: when [IP.Mask] is not nil and the subnet has two host bits or
    more, every address either seeder sends lies in the subnet: it
    carries bytes, as many as the network address, and masking it with
    the mask of the subnet gives the network address back. *)
Theorem sent_in_subnet (ipnet : IPNet) (host : IP) :
  IP_Mask (ipnet_IP ipnet) (ipnet_Mask ipnet) = Some host ->
  2 <= hostBits ipnet ->
  (forall phase fuel env a,
      In a (sent (fst (Scan.run {| Scan.ipnet := ipnet |} phase fuel env))) ->
      exists addr, a = Some addr /\ length addr = length host /\
                   IP_Mask addr (ipnet_Mask ipnet) = Some host) /\
  (forall rnd phase fuel env a,
      In a (sent (fst (Probe.run {| Probe.ipnet := ipnet |} rnd phase fuel env))) ->
      exists addr, a = Some addr /\ length addr = length host /\
                   IP_Mask addr (ipnet_Mask ipnet) = Some host).
Proof.
  intros Hm Hhb.
  assert (Hto : forall v, 0 < v < 2 ^ hostBits ipnet - 1 ->
            exists addr, toAddress ipnet v = Some addr /\
                         length addr = length host /\
                         IP_Mask addr (ipnet_Mask ipnet) = Some host).
  { intros v Hv.
    destruct (toAddress_value ipnet host v Hm ltac:(lia) ltac:(lia))
      as (addr & E & L & _ & M).
    exists addr. auto. }
  split.
  - intros phase fuel env a. unfold Scan.run. simpl Scan.ipnet.
    destruct (Scan.hostIPOf ipnet) as [hostIP|]; [|intros []].
    destruct (hostBits ipnet <? 2).
    + rewrite sent_awaitQuit. intros [].
    + intros Hin.
      destruct (sent_scanLoop ipnet hostIP (hostBits ipnet) fuel
                  ltac:(lia) _ _ _ Hin) as (v & Hv & ->).
      apply Hto. exact Hv.
  - intros rnd phase fuel env a. unfold Probe.run. simpl Probe.ipnet.
    destruct (hostBits ipnet <? 2).
    + rewrite sent_awaitQuit. intros [].
    + intros Hin.
      destruct (sent_probeLoop ipnet (hostBits ipnet) rnd env
                  ltac:(lia) _ _ Hin) as (v & Hv & ->).
      apply Hto. exact Hv.
Qed.

Lemma sent_in_subnet_witness :
  exists addr,
    Some [Byte.xc0; Byte.xa8; Byte.x00; Byte.x65] = Some addr /\
    length addr = 4%nat /\
    IP_Mask addr mask24 = Some [Byte.xc0; Byte.xa8; Byte.x00; Byte.x00].
Proof.
  destruct (sent_in_subnet net24 [Byte.xc0; Byte.xa8; Byte.x00; Byte.x00])
    as [Hscan _].
  - reflexivity.
  - vm_compute. discriminate.
  - apply (Hscan (fun _ => 0) 4%nat [SinkReady; SinkReady; CloseCalled]).
    vm_compute. right. left. reflexivity.
Defined.

(** ** The origin of the scan, in general *)

Lemma index_from_end (ip : IP) (k : nat) :
  index ip (Z.of_nat (length ip) - 1 - Z.of_nat k) = nth_error (rev ip) k.
Proof.
  unfold index. rewrite nth_error_rev.
  destruct (Z.ltb_spec (Z.of_nat (length ip) - 1 - Z.of_nat k) 0);
    destruct (Nat.ltb_spec k (length ip)); try lia; [reflexivity|].
  f_equal. lia.
Qed.

Lemma hostIPLoop_byte (ip : IP) (b : byte) (k : nat) steps :
  nth_error (rev ip) k = Some b ->
  forall r hostIP,
    0 <= r ->
    r + Z.of_nat steps <= 8 ->
    Scan.hostIPLoop ip steps (8 * Z.of_nat k + r) hostIP
    = Some (hostIP
            + Z.land (byte.unsigned b) (Z.ones (r + Z.of_nat steps))
            - Z.land (byte.unsigned b) (Z.ones r)).
Proof.
  intros Hb. induction steps as [|steps IH]; intros r hostIP Hr Hle.
  - simpl. rewrite Z.add_0_r. f_equal. lia.
  - rewrite Nat2Z.inj_succ in *. cbn [Scan.hostIPLoop].
    rewrite Z.quot_div_nonneg, Z.rem_mod_nonneg by lia.
    replace ((8 * Z.of_nat k + r) / 8) with (Z.of_nat k)
      by (Z.div_mod_to_equations; lia).
    replace ((8 * Z.of_nat k + r) mod 8) with r
      by (Z.div_mod_to_equations; lia).
    rewrite index_from_end, Hb, shl_1_small by lia.
    replace (8 * Z.of_nat k + r + 1) with (8 * Z.of_nat k + (r + 1)) by lia.
    rewrite IH by lia. f_equal.
    replace (r + Z.succ (Z.of_nat steps)) with (r + 1 + Z.of_nat steps) by lia.
    rewrite (land_ones_succ b r) by lia. lia.
Qed.

Lemma hostIPLoop_add ip s1 :
  forall s2 i hostIP,
    Scan.hostIPLoop ip (s1 + s2) i hostIP
    = match Scan.hostIPLoop ip s1 i hostIP with
      | Some h => Scan.hostIPLoop ip s2 (i + Z.of_nat s1) h
      | None => None
      end.
Proof.
  induction s1 as [|s1 IH]; intros s2 i hostIP.
  - simpl. rewrite Z.add_0_r. reflexivity.
  - cbn [Nat.add Scan.hostIPLoop].
    destruct (index ip _); [|reflexivity].
    rewrite IH. rewrite Nat2Z.inj_succ.
    replace (i + 1 + Z.of_nat s1) with (i + Z.succ (Z.of_nat s1)) by lia.
    reflexivity.
Qed.

Lemma hostIPLoop_sum (ip : IP) rest :
  forall pre hb hostIP,
    rev ip = pre ++ rest ->
    hb <= 8 * Z.of_nat (length rest) ->
    Scan.hostIPLoop ip (Z.to_nat hb) (8 * Z.of_nat (length pre)) hostIP
    = Some (hostIP + hostPartSum rest hb).
Proof.
  induction rest as [|b rest IH]; intros pre hb hostIP Hrev Hhb.
  - simpl in Hhb. replace (Z.to_nat hb) with 0%nat by lia.
    simpl. f_equal. lia.
  - cbn [hostPartSum]. destruct (Z.leb_spec hb 0) as [Hle | Hgt].
    + replace (Z.to_nat hb) with 0%nat by lia. simpl. f_equal. lia.
    + assert (Hb : nth_error (rev ip) (length pre) = Some b).
      { rewrite Hrev, nth_error_app2, Nat.sub_diag by lia. reflexivity. }
      replace (Z.to_nat hb)
        with (Z.to_nat (Z.min hb 8) + Z.to_nat (hb - 8))%nat by lia.
      rewrite hostIPLoop_add.
      replace (8 * Z.of_nat (length pre))
        with (8 * Z.of_nat (length pre) + 0) at 1 by lia.
      rewrite (hostIPLoop_byte ip b (length pre) _ Hb) by lia.
      change (Z.ones 0) with 0. rewrite Z.land_0_r.
      rewrite Z2Nat.id by lia. rewrite Z.add_0_l, Z.sub_0_r.
      rewrite Z.land_ones by lia.
      destruct (Z_le_gt_dec hb 8) as [Hs | Hl].
      * replace (Z.to_nat (hb - 8)) with 0%nat by lia.
        cbn [Scan.hostIPLoop]. f_equal.
        assert (E0 : hostPartSum rest (hb - 8) = 0).
        { destruct rest; simpl; [reflexivity|].
          destruct (Z.leb_spec (hb - 8) 0); [reflexivity | lia]. }
        rewrite E0. lia.
      * replace (Z.min hb 8) with 8 by lia.
        replace (8 * Z.of_nat (length pre) + 8)
          with (8 * Z.of_nat (length (pre ++ [b]))).
        2:{ rewrite length_app, Nat2Z.inj_add. cbn [length]. lia. }
        rewrite (IH (pre ++ [b])).
        -- f_equal. lia.
        -- rewrite <- app_assoc. exact Hrev.
        -- cbn [length] in Hhb. lia.
Qed.

Lemma hostIPLoop_short (ip : IP) steps :
  forall i hostIP,
    0 <= i <= 8 * Z.of_nat (length ip) ->
    8 * Z.of_nat (length ip) < i + Z.of_nat steps ->
    Scan.hostIPLoop ip steps i hostIP = None.
Proof.
  induction steps as [|steps IH]; intros i hostIP Hi Hs; [lia|].
  rewrite Nat2Z.inj_succ in Hs. cbn [Scan.hostIPLoop].
  rewrite Z.quot_div_nonneg by lia. unfold index.
  destruct (Z.ltb_spec (Z.of_nat (length ip) - 1 - i / 8) 0) as [Hn | Hp];
    [reflexivity|].
  destruct (nth_error ip (Z.to_nat (Z.of_nat (length ip) - 1 - i / 8)));
    [|reflexivity].
  apply IH; Z.div_mod_to_equations; lia.
Qed.

Lemma scanLoop_no_panic ipnet hostIP hb fuel :
  forall st env, snd (Scan.scanLoop ipnet hostIP hb fuel st env) <> Panicked.
Proof.
  induction fuel as [|fuel IH]; intros st env; simpl; [discriminate|].
  destruct (Scan.scanBody hostIP hb st) as [st' [v|]]; [|apply IH].
  destruct env as [|[|] env']; try discriminate.
  specialize (IH st' env').
  destruct (Scan.scanLoop ipnet hostIP hb fuel st' env'). exact IH.
Qed.

(** X8: when the address has room for the host bits, the origin of the
    scan is the sum, over the bytes of the address from the last one, of
    the host bits each byte holds, every byte counted below 256; it lies
    between [0] and [2^hostBits - 1]. *)
Theorem scan_origin_sum (ipnet : IPNet) :
  hostBits ipnet <= 8 * Z.of_nat (length (ipnet_IP ipnet)) ->
  Scan.hostIPOf ipnet
  = Some (hostPartSum (rev (ipnet_IP ipnet)) (hostBits ipnet)) /\
  0 <= hostPartSum (rev (ipnet_IP ipnet)) (hostBits ipnet)
    <= 2 ^ hostBits ipnet - 1.
Proof.
  intros Hfit.
  assert (E : Scan.hostIPOf ipnet
              = Some (hostPartSum (rev (ipnet_IP ipnet)) (hostBits ipnet))).
  { unfold Scan.hostIPOf.
    change 0 with (8 * Z.of_nat (@length byte [])) at 1.
    rewrite (hostIPLoop_sum (ipnet_IP ipnet) (rev (ipnet_IP ipnet)) []
               (hostBits ipnet) 0 eq_refl).
    - reflexivity.
    - rewrite length_rev. exact Hfit. }
  split; [exact E|].
  destruct (hostIPOf_bounds ipnet Hfit) as (h & Eh & Hh & _).
  rewrite E in Eh. injection Eh as <-. exact Hh.
Qed.

Lemma scan_origin_sum_witness :
  Scan.hostIPOf net20 = Some (hostPartSum (rev (ipnet_IP net20)) 12) /\
  hostPartSum (rev (ipnet_IP net20)) 12 = 100 + 1.
Proof.
  destruct (scan_origin_sum net20) as [E _].
  - vm_compute. discriminate.
  - split; [exact E | reflexivity].
Defined.

(** X9: the scanner panics exactly when the address has fewer bits than
    the subnet has host bits: the loop over the host bits then indexes
    before the first byte, ahead of the check of the host bits and of
    any channel operation; otherwise no run of the scanner panics. *)
Theorem scan_panics_iff_short_address (ipnet : IPNet) :
  (Scan.hostIPOf ipnet = None <->
   8 * Z.of_nat (length (ipnet_IP ipnet)) < hostBits ipnet) /\
  (8 * Z.of_nat (length (ipnet_IP ipnet)) < hostBits ipnet ->
   forall phase fuel env,
     Scan.run {| Scan.ipnet := ipnet |} phase fuel env = ([], Panicked)) /\
  (hostBits ipnet <= 8 * Z.of_nat (length (ipnet_IP ipnet)) ->
   forall phase fuel env,
     snd (Scan.run {| Scan.ipnet := ipnet |} phase fuel env) <> Panicked).
Proof.
  assert (Hshort : 8 * Z.of_nat (length (ipnet_IP ipnet)) < hostBits ipnet ->
                   Scan.hostIPOf ipnet = None).
  { intros H. unfold Scan.hostIPOf. apply hostIPLoop_short; lia. }
  split; [|split].
  - split; [|exact Hshort].
    intros E.
    destruct (Z_lt_ge_dec (8 * Z.of_nat (length (ipnet_IP ipnet)))
                (hostBits ipnet)) as [Hlt | Hge]; [exact Hlt|].
    destruct (hostIPOf_bounds ipnet ltac:(lia)) as (h & Eh & _). congruence.
  - intros H phase fuel env. unfold Scan.run. simpl Scan.ipnet.
    rewrite (Hshort H). reflexivity.
  - intros H phase fuel env. unfold Scan.run. simpl Scan.ipnet.
    destruct (hostIPOf_bounds ipnet H) as (h & Eh & _). rewrite Eh.
    destruct (hostBits ipnet <? 2).
    + unfold awaitQuit. destruct (existsb isClose env); discriminate.
    + apply scanLoop_no_panic.
Qed.

Lemma scan_panics_iff_short_address_witness :
  hostBits {| ipnet_IP := []; ipnet_Mask := mask31 |} = 1 /\
  Scan.run {| Scan.ipnet := {| ipnet_IP := []; ipnet_Mask := mask31 |} |}
    (fun _ => 0) 0%nat [CloseCalled]
  = ([], Panicked) /\
  snd (Scan.run {| Scan.ipnet := net31 |} (fun _ => 0) 0%nat [CloseCalled])
  <> Panicked.
Proof.
  split; [reflexivity|]. split.
  - destruct (scan_panics_iff_short_address
                {| ipnet_IP := []; ipnet_Mask := mask31 |}) as (_ & H & _).
    apply H. vm_compute. reflexivity.
  - destruct (scan_panics_iff_short_address net31) as (_ & _ & H).
    apply H. vm_compute. discriminate.
Defined.

(** ** Whole sessions *)

(** X10: on every subnet of 64 host bits or more the scanner never sends
    an address and never answers [Close], and the prober panics ahead of
    its first [select]. *)
Theorem seeders_from_64_host_bits (ipnet : IPNet) :
  64 <= hostBits ipnet ->
  (forall phase fuel env,
      sent (fst (Scan.run {| Scan.ipnet := ipnet |} phase fuel env)) = [] /\
      Close (Scan.run {| Scan.ipnet := ipnet |} phase) fuel env = None) /\
  (forall rnd phase fuel env,
      Probe.run {| Probe.ipnet := ipnet |} rnd phase fuel env = ([], Panicked)).
Proof.
  intros Hhb. split.
  - intros phase fuel env. apply scan_silent_from_64. exact Hhb.
  - intros rnd phase fuel env. apply probe_panics_from_64. exact Hhb.
Qed.

Lemma seeders_from_64_host_bits_witness :
  Close (Scan.run {| Scan.ipnet := net6_64 |} (fun _ => 0)) 1000%nat
    [SinkReady; CloseCalled] = None /\
  Probe.run {| Probe.ipnet := net6_64 |} (fun _ => 5) (fun _ => 0) 0%nat
    [SinkReady; CloseCalled] = ([], Panicked).
Proof.
  destruct (seeders_from_64_host_bits net6_64) as [Hs Hp].
  - vm_compute. discriminate.
  - split; [apply Hs | apply Hp].
Defined.

(** X4: on a subnet of fewer than two host bits whose address has room
    for them, either seeder sends nothing and stays parked on its quit
    channel; once [Close] is called it replies the error about the host
    address space and returns. *)
Theorem small_subnet_session (ipnet : IPNet) :
  hostBits ipnet < 2 ->
  hostBits ipnet <= 8 * Z.of_nat (length (ipnet_IP ipnet)) ->
  forall phase rnd fuel env,
    let parked :=
      if existsb isClose env
      then ([EvQuit; EvReply (Some (ErrHostSpaceTooSmall (hostBits ipnet)))],
            Returned)
      else ([], Blocked) in
    Scan.run {| Scan.ipnet := ipnet |} phase fuel env = parked /\
    Probe.run {| Probe.ipnet := ipnet |} rnd phase fuel env = parked.
Proof.
  intros Hhb Hfit phase rnd fuel env parked.
  destruct (hostIPOf_bounds ipnet Hfit) as (h & Eh & _).
  unfold Scan.run, Probe.run. simpl Scan.ipnet. simpl Probe.ipnet.
  rewrite Eh. destruct (Z.ltb_spec (hostBits ipnet) 2); [|lia].
  split; reflexivity.
Qed.

Lemma small_subnet_session_witness :
  Scan.run {| Scan.ipnet := net31 |} (fun _ => 0) 5%nat [SinkReady; SinkReady]
  = ([], Blocked) /\
  Probe.run {| Probe.ipnet := net31 |} (fun _ => 3) (fun _ => 0) 5%nat
    [SinkReady; CloseCalled]
  = ([EvQuit; EvReply (Some (ErrHostSpaceTooSmall 1))], Returned).
Proof.
  assert (H1 : hostBits net31 < 2) by (vm_compute; reflexivity).
  assert (H2 : hostBits net31 <= 8 * Z.of_nat (length (ipnet_IP net31)))
    by (vm_compute; discriminate).
  split.
  - apply (small_subnet_session net31 H1 H2 (fun _ => 0) (fun _ => 3) 5%nat
             [SinkReady; SinkReady]).
  - apply (small_subnet_session net31 H1 H2 (fun _ => 0) (fun _ => 3) 5%nat
             [SinkReady; CloseCalled]).
Defined.

Lemma probeLoop_session ipnet hb rnd :
  2 <= hb <= 63 ->
  forall k i rest,
    Probe.probeLoop ipnet hb rnd i (repeat SinkReady k ++ CloseCalled :: rest)
    = (map EvSend
         (map (fun d => toAddress ipnet (rnd d mod (2 ^ hb - 2) + 1))
              (seq i k))
         ++ [EvQuit; EvReply None],
       Returned).
Proof.
  intros Hhb.
  assert (Hb : Probe.drawBound hb = 2 ^ hb - 2) by (apply drawBound_small; lia).
  assert (Hpos : 2 ^ 2 <= 2 ^ hb) by (apply Z.pow_le_mono_r; lia).
  assert (Hmax : 2 ^ hb <= 2 ^ 63) by (apply Z.pow_le_mono_r; lia).
  assert (Hadd : forall raw, Int64.add (raw mod (2 ^ hb - 2)) 1
                             = raw mod (2 ^ hb - 2) + 1).
  { intros raw. pose proof (Z.mod_pos_bound raw (2 ^ hb - 2) ltac:(lia)).
    apply wrap64_small.
    unfold Int64.in_range, Int64.min_int, Int64.max_int. lia. }
  induction k as [|k IH]; intros i rest; cbn [repeat app Probe.probeLoop];
    unfold Probe.Intn; rewrite Hb;
    destruct (Z.leb_spec (2 ^ hb - 2) 0); try lia.
  - reflexivity.
  - rewrite IH, Hadd. reflexivity.
Qed.

(** X6: on a subnet of two to 63 host bits, a consumer that takes [k]
    addresses from the prober and then calls [Close] gets, for the
    [d]-th draw, the address of the host offset
    [rnd d mod (2^hostBits - 2) + 1], then the nil reply; no arithmetic
    of the prober overflows. *)
Theorem probe_session (ipnet : IPNet) :
  2 <= hostBits ipnet <= 63 ->
  forall rnd phase fuel k rest,
    Probe.run {| Probe.ipnet := ipnet |} rnd phase fuel
      (repeat SinkReady k ++ CloseCalled :: rest)
    = (map EvSend
         (map (fun d => toAddress ipnet
                          (rnd d mod (2 ^ hostBits ipnet - 2) + 1))
              (seq 0 k))
         ++ [EvQuit; EvReply None],
       Returned).
Proof.
  intros Hhb rnd phase fuel k rest. unfold Probe.run. simpl Probe.ipnet.
  destruct (Z.ltb_spec (hostBits ipnet) 2); [lia|].
  apply probeLoop_session. exact Hhb.
Qed.

Lemma probe_session_witness :
  Probe.run {| Probe.ipnet := net24 |} (fun d => Z.of_nat d * 253)
    (fun _ => 0) 0%nat (repeat SinkReady 2 ++ [CloseCalled])
  = ([EvSend (toAddress net24 1); EvSend (toAddress net24 254);
      EvQuit; EvReply None], Returned).
Proof.
  apply (probe_session net24 ltac:(vm_compute; split; discriminate)
           (fun d => Z.of_nat d * 253) (fun _ => 0) 0%nat 2%nat []).
Defined.

Lemma orderly_once tr o :
  orderly tr o ->
  (length (filter isReply tr) <= 1)%nat /\
  (length (filter isQuit tr) <= 1)%nat /\
  (length (filter isReply tr) = length (filter isQuit tr)).
Proof.
  induction 1 as [o Ho | err | addr tr o H IH]; simpl; lia.
Qed.

(** X16: whatever the environment does, several calls of [Close]
    included, a seeder reads its quit channel at most once and replies
    exactly as often as it read it. *)
Theorem run_replies_once :
  (forall s phase fuel env,
      (length (filter isQuit (fst (Scan.run s phase fuel env))) <= 1)%nat /\
      length (filter isReply (fst (Scan.run s phase fuel env)))
      = length (filter isQuit (fst (Scan.run s phase fuel env)))) /\
  (forall s rnd phase fuel env,
      (length (filter isQuit (fst (Probe.run s rnd phase fuel env))) <= 1)%nat /\
      length (filter isReply (fst (Probe.run s rnd phase fuel env)))
      = length (filter isQuit (fst (Probe.run s rnd phase fuel env)))).
Proof.
  split; intros.
  - destruct (orderly_once _ _ (orderly_scan_run s phase fuel env))
      as (_ & H & E). auto.
  - destruct (orderly_once _ _ (orderly_probe_run s rnd phase fuel env))
      as (_ & H & E). auto.
Qed.

Lemma concat_repeat_map (A B : Type) (f : A -> B) (l : list A) n :
  map f (concat (repeat l n)) = concat (repeat (map f l) n).
Proof. rewrite concat_map, map_repeat. reflexivity. Qed.

(** The rounds of the scanner on a subnet of two to 63 host bits whose
    mask applies to its address: the round, the passes it takes, and
    what any number of rounds and any session send. *)
Lemma scan_rounds_sent ipnet host :
  IP_Mask (ipnet_IP ipnet) (ipnet_Mask ipnet) = Some host ->
  2 <= hostBits ipnet <= 63 ->
  exists (passes : nat) (round : list (option IP)),
    NoDup round /\
    Z.of_nat (length round) = 2 ^ hostBits ipnet - 2 /\
    (forall a, In a round <->
               exists h, 0 < h < 2 ^ hostBits ipnet - 1 /\
                         a = toAddress ipnet h) /\
    (forall n phase fuel,
        (n * passes <= fuel)%nat ->
        sent (fst (Scan.run {| Scan.ipnet := ipnet |} phase fuel
                     (repeat SinkReady (n * length round))))
        = concat (repeat round n)) /\
    (forall k rest phase fuel,
        (S k * passes <= fuel)%nat ->
        Scan.run {| Scan.ipnet := ipnet |} phase fuel
          (repeat SinkReady k ++ CloseCalled :: rest)
        = (map EvSend (firstn k (concat (repeat round (S k))))
             ++ [EvQuit; EvReply None],
           Returned)).
Proof.
  intros Hm Hhb.
  assert (Hfit := masked_fits_hostBits ipnet host Hm ltac:(lia)).
  destruct (scan_round ipnet Hfit Hhb)
    as (h & j & l & st1 & Eh & E & Hdis & Hnd & Hin & Hlen).
  exists (S j), (map (toAddress ipnet) l).
  split; [|split; [|split; [|split]]].
  - apply NoDup_map_NoDup_ForallPairs; [|exact Hnd].
    intros x y Hx Hy Exy. apply Hin in Hx, Hy.
    destruct (toAddress_hostPortion ipnet host x Hm) as (ax & Eax & _ & Hpx);
      try lia.
    destruct (toAddress_hostPortion ipnet host y Hm) as (ay & Eay & _ & Hpy);
      try lia.
    rewrite Eax, Eay in Exy. injection Exy as ->. congruence.
  - rewrite length_map. exact Hlen.
  - intros a. rewrite in_map_iff. split.
    + intros (v & <- & Hv). exists v. split; [apply Hin; exact Hv | reflexivity].
    + intros (v & Hv & ->). exists v. split; [reflexivity | apply Hin; exact Hv].
  - intros n phase fuel Hfuel. unfold Scan.run. simpl Scan.ipnet. rewrite Eh.
    destruct (Z.ltb_spec (hostBits ipnet) 2); [lia|].
    destruct (rounds h (hostBits ipnet) j l st1 E Hdis n Scan.scanInit
                (or_intror eq_refl)) as [st' En].
    replace fuel with (n * S j + (fuel - n * S j))%nat by lia.
    replace (repeat SinkReady (n * length (map (toAddress ipnet) l)))
      with (repeat SinkReady (length (concat (repeat l n))) ++ []).
    2:{ rewrite app_nil_r, length_map, length_concat_repeat. reflexivity. }
    rewrite (scanLoop_sends ipnet h (hostBits ipnet) _ _ _ _ En).
    cbn [fst]. rewrite scanLoop_quiet, sent_sends. simpl sent.
    rewrite app_nil_r. apply concat_repeat_map.
  - intros k rest phase fuel Hfuel. unfold Scan.run. simpl Scan.ipnet.
    rewrite Eh. destruct (Z.ltb_spec (hostBits ipnet) 2); [lia|].
    destruct (rounds h (hostBits ipnet) j l st1 E Hdis (S k) Scan.scanInit
                (or_intror eq_refl)) as [st' En].
    assert (Hk : (k < length (concat (repeat l (S k))))%nat).
    { rewrite length_concat_repeat.
      assert (4 <= 2 ^ hostBits ipnet)
        by (change 4 with (2 ^ 2); apply Z.pow_le_mono_r; lia).
      assert (1 <= length l)%nat by lia. nia. }
    replace fuel with (S k * S j + (fuel - S k * S j))%nat by lia.
    rewrite (scanLoop_close ipnet h (hostBits ipnet) _ _ _ _ k En Hk).
    rewrite <- concat_repeat_map, firstn_map. reflexivity.
Qed.

(** X2: on a subnet of two to 63 host bits whose mask applies to its
    address, a consumer that takes [k] addresses from the scanner and
    then calls [Close] gets the first [k] addresses of the round of
    [2^hostBits - 2] distinct addresses repeated over and over, then the
    nil reply, once the scanner has run long enough. *)
Theorem scan_session (ipnet : IPNet) (host : IP) :
  IP_Mask (ipnet_IP ipnet) (ipnet_Mask ipnet) = Some host ->
  2 <= hostBits ipnet <= 63 ->
  exists round : list (option IP),
    NoDup round /\
    Z.of_nat (length round) = 2 ^ hostBits ipnet - 2 /\
    forall k rest,
    exists fuel0, forall phase fuel,
        (fuel0 <= fuel)%nat ->
        Scan.run {| Scan.ipnet := ipnet |} phase fuel
          (repeat SinkReady k ++ CloseCalled :: rest)
        = (map EvSend (firstn k (concat (repeat round (S k))))
             ++ [EvQuit; EvReply None],
           Returned).
Proof.
  intros Hm Hhb.
  destruct (scan_rounds_sent ipnet host Hm Hhb)
    as (passes & round & Hnd & Hlen & _ & _ & Hrun).
  exists round. split; [exact Hnd|]. split; [exact Hlen|].
  intros k rest. exists (S k * passes)%nat. intros phase fuel Hfuel.
  apply Hrun. exact Hfuel.
Qed.

Lemma scan_session_witness :
  exists round : list (option IP),
    Z.of_nat (length round) = 2 ^ hostBits net30 - 2 /\
    exists fuel0, forall phase fuel,
        (fuel0 <= fuel)%nat ->
        Scan.run {| Scan.ipnet := net30 |} phase fuel
          (repeat SinkReady 3 ++ [CloseCalled])
        = (map EvSend (firstn 3 (concat (repeat round 4)))
             ++ [EvQuit; EvReply None],
           Returned).
Proof.
  destruct (scan_session net30 [Byte.xc0; Byte.xa8; Byte.x00; Byte.x64] eq_refl)
    as (round & _ & Hlen & Hrun).
  - vm_compute. split; discriminate.
  - exists round. split; [exact Hlen|]. apply (Hrun 3%nat []).
Defined.

(** ** The subnets of the tests *)

Lemma IP_Mask_v4 (ip : IP) (m : IPMask) :
  length m = 4%nat ->
  length ip = 4%nat \/
  (length ip = 16%nat /\ firstn 12 ip = v4InV6Prefix) ->
  exists host, IP_Mask ip m = Some host.
Proof.
  intros Lm Hip. unfold IP_Mask, IPv6len, IPv4len.
  destruct Hip as [Li | [Li Hp]].
  - repeat (first [rewrite Lm | rewrite Li]; cbn [Nat.eqb andb]).
    eexists. reflexivity.
  - repeat (first [rewrite Lm | rewrite Li]; cbn [Nat.eqb andb]).
    unfold bytesEqual. rewrite Hp.
    destruct (list_eq_dec Byte.byte_eq_dec v4InV6Prefix v4InV6Prefix);
      [|congruence].
    rewrite length_skipn, Li. cbn [Nat.sub Nat.eqb]. eexists. reflexivity.
Qed.

(** X15: for every IPv4 address, as 4 bytes or as 16 bytes behind the
    IPv4-in-IPv6 prefix, and every mask [net.CIDRMask(subnet, 32)] with
    [1 <= subnet <= 30], the scanner sends [valid] distinct addresses
    and then the same ones again, where [valid] is
    [(1 << uint(32-subnet)) - 2] as the test computes it. *)
Theorem scan_on_cidr_subnets (ip : IP) (subnet : Z) (m : IPMask) :
  length ip = 4%nat \/
  (length ip = 16%nat /\ firstn 12 ip = v4InV6Prefix) ->
  1 <= subnet <= 30 ->
  CIDRMask subnet 32 = Some m ->
  let ipnet := {| ipnet_IP := ip; ipnet_Mask := m |} in
  let valid := Int64.sub (Int64.shl 1 (32 - subnet)) 2 in
  exists (fuel0 : nat) (round : list (option IP)),
    NoDup round /\
    Z.of_nat (length round) = valid /\
    forall phase fuel,
      (fuel0 <= fuel)%nat ->
      sent (fst (Scan.run {| Scan.ipnet := ipnet |} phase fuel
                   (repeat SinkReady (2 * length round))))
      = round ++ round.
Proof.
  intros Hip Hsub Hc ipnet valid.
  destruct (CIDRMask_Size_nat 32 (Z.to_nat subnet) (or_introl eq_refl))
    as (m' & Em & Es & El); [lia|].
  rewrite Z2Nat.id in * by lia. rewrite Hc in Em. injection Em as <-.
  assert (Lm : length m = 4%nat) by (change (32 / 8) with 4 in El; lia).
  assert (Ehb : hostBits ipnet = 32 - subnet).
  { unfold hostBits, ipnet. simpl ipnet_Mask. rewrite Es. reflexivity. }
  destruct (IP_Mask_v4 ip m Lm Hip) as [host Hm].
  destruct (scan_rounds_sent ipnet host Hm ltac:(lia))
    as (passes & round & Hnd & Hlen & _ & Hrun & _).
  exists (2 * passes)%nat, round.
  split; [exact Hnd|]. split.
  - rewrite Hlen, Ehb. unfold valid.
    change (Int64.sub (Int64.shl 1 (32 - subnet)) 2)
      with (Probe.drawBound (32 - subnet)).
    rewrite drawBound_small by lia. reflexivity.
  - intros phase fuel Hfuel. rewrite (Hrun 2%nat phase fuel Hfuel).
    simpl. rewrite app_nil_r. reflexivity.
Qed.

Lemma scan_on_cidr_subnets_witness :
  exists (fuel0 : nat) (round : list (option IP)),
    Z.of_nat (length round) = 4094 /\
    forall phase fuel,
      (fuel0 <= fuel)%nat ->
      sent (fst (Scan.run
                   {| Scan.ipnet := {| ipnet_IP := ip_192_168_0_100;
                                       ipnet_Mask := mask20 |} |}
                   phase fuel (repeat SinkReady (2 * length round))))
      = round ++ round.
Proof.
  destruct (scan_on_cidr_subnets ip_192_168_0_100 20 mask20)
    as (fuel0 & round & _ & Hlen & Hrun).
  - left. reflexivity.
  - lia.
  - reflexivity.
  - exists fuel0, round. split; [exact Hlen | exact Hrun].
Defined.

(** ** The order of a round *)

Lemma zigzag_odd k : zigzag (S (2 * k)) = Z.of_nat k + 1.
Proof.
  unfold zigzag. rewrite Nat.even_succ, <- Nat.negb_even, Nat.even_mul.
  cbn [Nat.even orb negb]. rewrite Nat2Z.inj_succ, Nat2Z.inj_mul.
  change (Z.of_nat 2) with 2. Z.div_mod_to_equations; lia.
Qed.

Lemma zigzag_even k : zigzag (2 * k) = - Z.of_nat k.
Proof.
  unfold zigzag. rewrite Nat.even_mul. cbn [Nat.even orb].
  rewrite Nat2Z.inj_mul. change (Z.of_nat 2) with 2.
  Z.div_mod_to_equations; lia.
Qed.

Lemma zigzag_tried a b :
  0 <= b -> b <= a <= b + 1 ->
  zigzag (Z.to_nat (a + b + 1)) = if a =? b then a + 1 else - a.
Proof.
  intros Hb Hab. destruct (Z.eqb_spec a b) as [-> | Hne].
  - replace (Z.to_nat (b + b + 1)) with (S (2 * Z.to_nat b)) by lia.
    rewrite zigzag_odd. lia.
  - replace (Z.to_nat (a + b + 1)) with (2 * Z.to_nat a)%nat by lia.
    rewrite zigzag_even. lia.
Qed.

Lemma zigzagOrder_cons hostIP bound start len :
  zigzagOrder hostIP bound start (S len)
  = (if inHostRange bound (hostIP + zigzag start)
     then [hostIP + zigzag start] else [])
      ++ zigzagOrder hostIP bound (S start) len.
Proof.
  unfold zigzagOrder. cbn [seq map filter].
  destruct (inHostRange bound (hostIP + zigzag start)); reflexivity.
Qed.

Section Order.

Variables hostIP hb : Z.
Hypothesis Hhb : 2 <= hb <= 63.
Hypothesis HhostIP : 0 <= hostIP <= 2 ^ hb - 1.
Hypothesis Hdouble : 2 * hostIP <= Int64.max_int.

Let bound : Z := 2 ^ hb - 1.

Lemma round_rest_order n :
  forall a b st,
    tried hostIP bound a b st ->
    2 * bound + 2 - (a + b) <= Z.of_nat n ->
    exists j st',
      scanCandidates hostIP hb j st
      = (zigzagOrder hostIP bound (Z.to_nat (a + b + 1)) j, st') /\
      bothDisabled st' = true /\
      NoDup (zigzagOrder hostIP bound (Z.to_nat (a + b + 1)) j) /\
      forall v, In v (zigzagOrder hostIP bound (Z.to_nat (a + b + 1)) j) <->
                0 < v < bound /\ (v < hostIP - b \/ hostIP + a < v).
Proof.
  induction n as [|n IH]; intros a b st Ht Hn;
    destruct (bothDisabled st) eqn:Hen.
  1, 3:
    exists 0%nat, st; split; [reflexivity|]; split; [exact Hen|];
    split; [constructor|]; intros v; split; [intros []|];
    destruct Ht as (_ & _ & _ & Hu & Hd);
    unfold bothDisabled in Hen; rewrite Hu, Hd in Hen;
    destruct (Z.ltb_spec (hostIP + a) bound); [discriminate|];
    destruct (Z.ltb_spec 0 (hostIP - b)); [discriminate|]; lia.
  - destruct (next_pass hostIP hb Hhb HhostIP Hdouble a b st Ht Hen)
      as (st1 & _ & _ & Hle). fold bound in Hle. lia.
  - destruct (next_pass hostIP hb Hhb HhostIP Hdouble a b st Ht Hen)
      as (st1 & E & Ht1 & Hle).
    fold bound in E, Ht1, Hle.
    pose proof Ht as (Hb0 & Hab & _).
    pose proof (zigzag_tried a b Hb0 Hab) as Hz.
    assert (Hbound : 3 <= bound).
    { unfold bound. assert (2 ^ 2 <= 2 ^ hb) by (apply Z.pow_le_mono_r; lia).
      lia. }
    destruct (Z.eqb_spec a b) as [Eab | Nab].
    + subst b.
      destruct (IH (a + 1) a st1 Ht1) as (j & st' & Ej & Hdis & Hnd & Hin);
        [lia|].
      replace (Z.to_nat (a + 1 + a + 1)) with (S (Z.to_nat (a + a + 1)))
        in Ej, Hnd, Hin by lia.
      exists (S j), st'. rewrite zigzagOrder_cons, Hz.
      replace (hostIP + (a + 1)) with (hostIP + a + 1) by lia.
      assert (Hr : inHostRange bound (hostIP + a + 1)
                   = (hostIP + a + 1 <? bound)).
      { unfold inHostRange.
        destruct (Z.ltb_spec 0 (hostIP + a + 1)); [reflexivity | lia]. }
      rewrite Hr. cbn [scanCandidates]. rewrite E, Ej.
      destruct (Z.ltb_spec (hostIP + a + 1) bound) as [Hlt | Hge];
        cbn [app].
      * split; [reflexivity|]. split; [exact Hdis|]. split.
        -- constructor; [|exact Hnd]. rewrite Hin. lia.
        -- intros v. simpl. rewrite Hin. lia.
      * split; [reflexivity|]. split; [exact Hdis|]. split; [exact Hnd|].
        intros v. rewrite Hin. lia.
    + assert (a = b + 1) by lia. subst a.
      destruct (IH (b + 1) (b + 1) st1 Ht1)
        as (j & st' & Ej & Hdis & Hnd & Hin); [lia|].
      replace (Z.to_nat (b + 1 + (b + 1) + 1))
        with (S (Z.to_nat (b + 1 + b + 1))) in Ej, Hnd, Hin by lia.
      exists (S j), st'. rewrite zigzagOrder_cons, Hz.
      replace (hostIP + - (b + 1)) with (hostIP - (b + 1)) by lia.
      assert (Hr : inHostRange bound (hostIP - (b + 1))
                   = (0 <? hostIP - (b + 1))).
      { unfold inHostRange.
        destruct (Z.ltb_spec (hostIP - (b + 1)) bound);
          [apply andb_true_r | unfold bound in *; lia]. }
      rewrite Hr. cbn [scanCandidates]. rewrite E, Ej.
      destruct (Z.ltb_spec 0 (hostIP - (b + 1))) as [Hlt | Hge];
        cbn [app].
      * split; [reflexivity|]. split; [exact Hdis|]. split.
        -- constructor; [|exact Hnd]. rewrite Hin. lia.
        -- intros v. simpl. rewrite Hin. lia.
      * split; [reflexivity|]. split; [exact Hdis|]. split; [exact Hnd|].
        intros v. rewrite Hin. lia.
Qed.

Lemma round_order :
  exists j st',
    scanCandidates hostIP hb (S j) Scan.scanInit
    = (zigzagOrder hostIP bound 0 (S j), st') /\
    bothDisabled st' = true /\
    NoDup (zigzagOrder hostIP bound 0 (S j)) /\
    forall v, In v (zigzagOrder hostIP bound 0 (S j)) <-> 0 < v < bound.
Proof.
  destruct (first_pass hostIP hb Hhb HhostIP Hdouble Scan.scanInit
              (or_intror eq_refl)) as (st1 & E & Ht1).
  fold bound in E, Ht1.
  assert (Hbound : 3 <= bound).
  { unfold bound. assert (2 ^ 2 <= 2 ^ hb) by (apply Z.pow_le_mono_r; lia).
    lia. }
  destruct (round_rest_order (Z.to_nat (2 * bound + 2)) 0 0 st1 Ht1)
    as (j & st' & Ej & Hdis & Hnd & Hin); [lia|].
  change (Z.to_nat (0 + 0 + 1)) with 1%nat in Ej, Hnd, Hin.
  exists j, st'. rewrite zigzagOrder_cons.
  change (zigzag 0) with 0. rewrite Z.add_0_r.
  cbn [scanCandidates]. rewrite E, Ej. unfold inHostRange.
  destruct ((0 <? hostIP) && (hostIP <? bound)) eqn:Hc; cbn [app].
  - apply andb_true_iff in Hc. destruct Hc as [H0 H1].
    apply Z.ltb_lt in H0, H1.
    split; [reflexivity|]. split; [exact Hdis|]. split.
    + constructor; [|exact Hnd]. rewrite Hin. lia.
    + intros v. simpl. rewrite Hin. lia.
  - split; [reflexivity|]. split; [exact Hdis|]. split; [exact Hnd|].
    intros v. rewrite Hin.
    apply andb_false_iff in Hc.
    destruct Hc as [Hc | Hc]; apply Z.ltb_ge in Hc; lia.
Qed.

End Order.

(** X13: on a subnet of two to 63 host bits, the first round of the
    scanner sends the addresses of the host offsets [hostIP],
    [hostIP + 1], [hostIP - 1], [hostIP + 2], [hostIP - 2], ... in that
    order, leaving out the offsets outside the host range. *)
Theorem scan_round_order (ipnet : IPNet) :
  hostBits ipnet <= 8 * Z.of_nat (length (ipnet_IP ipnet)) ->
  2 <= hostBits ipnet <= 63 ->
  exists (hostIP : Z) (passes : nat),
    Scan.hostIPOf ipnet = Some hostIP /\
    let order := zigzagOrder hostIP (2 ^ hostBits ipnet - 1) 0 passes in
    Z.of_nat (length order) = 2 ^ hostBits ipnet - 2 /\
    forall phase fuel,
      (passes <= fuel)%nat ->
      sent (fst (Scan.run {| Scan.ipnet := ipnet |} phase fuel
                   (repeat SinkReady (length order))))
      = map (toAddress ipnet) order.
Proof.
  intros Hfit Hhb.
  destruct (hostIPOf_bounds ipnet Hfit) as (h & Eh & Hh1 & Hh2).
  assert (Hd : 2 * h <= Int64.max_int) by (unfold Int64.max_int; lia).
  destruct (round_order h (hostBits ipnet) Hhb Hh1 Hd)
    as (j & st' & E & Hdis & Hnd & Hin).
  exists h, (S j). split; [exact Eh|]. cbv zeta.
  set (order := zigzagOrder h (2 ^ hostBits ipnet - 1) 0 (S j)) in *.
  split.
  - assert (4 <= 2 ^ hostBits ipnet)
      by (change 4 with (2 ^ 2); apply Z.pow_le_mono_r; lia).
    rewrite (NoDup_interval_length order 1 (2 ^ hostBits ipnet - 1)); try lia.
    + exact Hnd.
    + intros v. rewrite Hin. lia.
  - intros phase fuel Hfuel. unfold Scan.run. simpl Scan.ipnet. rewrite Eh.
    destruct (Z.ltb_spec (hostBits ipnet) 2); [lia|].
    replace fuel with (S j + (fuel - S j))%nat by lia.
    rewrite <- (app_nil_r (repeat SinkReady (length order))).
    rewrite (scanLoop_sends ipnet h (hostBits ipnet) _ _ _ _ E).
    cbn [fst]. rewrite scanLoop_quiet, sent_sends. simpl sent.
    apply app_nil_r.
Qed.

Lemma scan_round_order_witness :
  exists (hostIP : Z) (passes : nat),
    Scan.hostIPOf net24 = Some hostIP /\
    forall phase fuel,
      (passes <= fuel)%nat ->
      sent (fst (Scan.run {| Scan.ipnet := net24 |} phase fuel
                   (repeat SinkReady
                      (length (zigzagOrder hostIP (2 ^ hostBits net24 - 1)
                                 0 passes)))))
      = map (toAddress net24)
            (zigzagOrder hostIP (2 ^ hostBits net24 - 1) 0 passes).
Proof.
  destruct (scan_round_order net24) as (h & passes & Eh & _ & Hrun).
  - vm_compute. discriminate.
  - vm_compute. split; discriminate.
  - exists h, passes. split; [exact Eh | exact Hrun].
Defined.

Lemma beValue_app l1 l2 :
  beValue (l1 ++ l2)
  = Z.lor (Z.shiftl (beValue l1) (8 * Z.of_nat (length l2))) (beValue l2).
Proof.
  unfold beValue at 1. rewrite fold_left_app. apply fold_be_shift.
Qed.

Lemma hostIPOf_own_offset ipnet :
  hostBits ipnet <= 8 * Z.of_nat (length (ipnet_IP ipnet)) ->
  1 <= hostBits ipnet <= 8 ->
  Scan.hostIPOf ipnet = Some (ownHostOffset_spec ipnet).
Proof.
  intros Hfit Hhb. unfold Scan.hostIPOf, ownHostOffset_spec.
  destruct (exists_last (l := ipnet_IP ipnet)) as (l & b & ->).
  { intros E. rewrite E in Hfit. simpl in Hfit. lia. }
  rewrite hostIPLoop_last_byte by lia.
  rewrite Z2Nat.id by lia. f_equal.
  change (Z.ones 0) with 0. rewrite Z.land_0_r.
  rewrite beValue_snoc, <- Z.land_ones by lia.
  rewrite Z.add_0_l, Z.add_0_l, Z.sub_0_r.
  apply Z.bits_inj'. intros i Hi.
  rewrite !Z.land_spec, Z.lor_spec, Z.testbit_ones_nonneg by lia.
  destruct (Z.ltb_spec i (hostBits ipnet)).
  - rewrite Z.shiftl_spec_low by lia. reflexivity.
  - rewrite !andb_false_r. reflexivity.
Qed.

(** X17: on a subnet of two to eight host bits whose mask applies to its
    address, and whose own address is neither the network nor the
    broadcast address, the first address the scanner sends is the node's
    own address (the configured one, or its last four bytes when it is an
    IPv4 address written on 16 bytes): offset 0 from the origin is never
    skipped, so the node is handed its own address as a candidate. *)
Theorem scan_starts_at_own_address (ipnet : IPNet) (host : IP) :
  IP_Mask (ipnet_IP ipnet) (ipnet_Mask ipnet) = Some host ->
  2 <= hostBits ipnet <= 8 ->
  0 < ownHostOffset_spec ipnet < 2 ^ hostBits ipnet - 1 ->
  exists self : IP,
    (self = ipnet_IP ipnet \/
     (length (ipnet_IP ipnet) = 16%nat /\ self = skipn 12 (ipnet_IP ipnet))) /\
    forall phase fuel env,
      (1 <= fuel)%nat ->
      exists rest,
        sent (fst (Scan.run {| Scan.ipnet := ipnet |} phase fuel
                     (SinkReady :: env)))
        = Some self :: rest.
Proof.
  intros Hm Hhb Hown.
  assert (Hfit := masked_fits_hostBits ipnet host Hm ltac:(lia)).
  destruct (IP_Mask_shape ipnet host Hm ltac:(lia))
    as (ip' & mask' & Hlen & Ehost & Hfit' & Hbits & Hshape & Hself & Hhigh).
  set (own := ownHostOffset_spec ipnet) in *.
  exists ip'. split; [exact Hself|].
  assert (Elow : beValue ip' mod 2 ^ hostBits ipnet = own).
  { unfold own, ownHostOffset_spec.
    destruct Hself as [-> | [L16 ->]]; [reflexivity|].
    rewrite <- (firstn_skipn 12 (ipnet_IP ipnet)) at 2.
    rewrite beValue_app, length_skipn, L16.
    rewrite <- !Z.land_ones by lia.
    apply Z.bits_inj'. intros i Hi.
    rewrite !Z.land_spec, Z.lor_spec, Z.testbit_ones_nonneg by lia.
    destruct (Z.ltb_spec i (hostBits ipnet)).
    - rewrite Z.shiftl_spec_low by lia. reflexivity.
    - rewrite !andb_false_r. reflexivity. }
  destruct (toAddress_value ipnet host own Hm ltac:(lia) ltac:(lia))
    as (addr & Eaddr & Laddr & Vaddr & _).
  assert (Lh : length host = length mask').
  { rewrite Ehost, length_map, length_combine. lia. }
  assert (Eself : addr = ip').
  { apply beValue_inj; [lia|]. rewrite Vaddr, Ehost, beValue_and by exact Hlen.
    rewrite <- Elow, <- Z.land_ones by lia.
    pose proof (beValue_testbit_high ip') as Htop.
    set (I := beValue ip') in *. set (M := beValue mask') in *.
    assert (Hdisj : Z.land (Z.land I M) (Z.land I (Z.ones (hostBits ipnet))) = 0).
    { apply Z.bits_inj'. intros i Hi.
      rewrite !Z.land_spec, Z.testbit_0_l, Z.testbit_ones_nonneg by lia.
      destruct (Z.ltb_spec i (hostBits ipnet)).
      - rewrite Hbits by lia. rewrite andb_false_r. reflexivity.
      - rewrite !andb_false_r. reflexivity. }
    rewrite Z.add_nocarry_lxor, Z.lxor_lor by exact Hdisj.
    apply Z.bits_inj'. intros i Hi.
    rewrite Z.lor_spec, !Z.land_spec, Z.testbit_ones_nonneg by lia.
    destruct (Z.ltb_spec i (hostBits ipnet)).
    - rewrite Hbits by lia. destruct (Z.testbit I i); reflexivity.
    - destruct (Z.ltb_spec i (8 * Z.of_nat (length mask'))).
      + rewrite Hhigh by lia. destruct (Z.testbit I i); reflexivity.
      + rewrite Htop by lia. reflexivity. }
  subst addr.
  intros phase fuel env Hfuel. unfold Scan.run. simpl Scan.ipnet.
  rewrite (hostIPOf_own_offset ipnet Hfit ltac:(lia)). fold own.
  destruct (Z.ltb_spec (hostBits ipnet) 2); [lia|].
  destruct fuel as [|fuel]; [lia|]. cbn [Scan.scanLoop].
  assert (Hpow : 2 ^ hostBits ipnet <= 2 ^ 8)
    by (apply Z.pow_le_mono_r; lia).
  destruct (first_pass own (hostBits ipnet) ltac:(lia) ltac:(lia)
              ltac:(unfold Int64.max_int; lia) Scan.scanInit
              (or_intror eq_refl)) as (st1 & E & _).
  rewrite E.
  destruct (Z.ltb_spec 0 own); [|lia].
  destruct (Z.ltb_spec own (2 ^ hostBits ipnet - 1)); [|lia].
  cbn [andb]. rewrite Eaddr.
  destruct (Scan.scanLoop ipnet own (hostBits ipnet) fuel st1 env) as [tr o].
  exists (sent tr). reflexivity.
Qed.

Lemma scan_starts_at_own_address_witness :
  exists rest,
    sent (fst (Scan.run {| Scan.ipnet := net24 |} (fun _ => 0) 3%nat
                 [SinkReady; SinkReady]))
    = Some ip_192_168_0_100 :: rest.
Proof.
  destruct (scan_starts_at_own_address net24
              [Byte.xc0; Byte.xa8; Byte.x00; Byte.x00])
    as (self & Hself & Hrun).
  - reflexivity.
  - vm_compute. split; discriminate.
  - vm_compute. split; reflexivity.
  - destruct (Hrun (fun _ => 0) 3%nat [SinkReady]) as [rest E]; [lia|].
    exists rest. rewrite E. f_equal.
    destruct Hself as [-> | [L _]]; [reflexivity | discriminate L].
Defined.

(** X18: when [IP.Mask] returns nil (mask and address lengths that do
    not fit each other), the byte loop of the address generation has
    nothing to write into: every address either seeder sends, in any
    run, is nil. *)
Theorem mispaired_subnet_sends_nil (ipnet : IPNet) :
  IP_Mask (ipnet_IP ipnet) (ipnet_Mask ipnet) = None ->
  (forall phase fuel env a,
      In a (sent (fst (Scan.run {| Scan.ipnet := ipnet |} phase fuel env))) ->
      a = None) /\
  (forall rnd phase fuel env a,
      In a (sent (fst (Probe.run {| Probe.ipnet := ipnet |} rnd phase fuel env))) ->
      a = None).
Proof.
  intros Hm.
  assert (Hto : forall v, toAddress ipnet v = None).
  { intros v. unfold toAddress. rewrite Hm. reflexivity. }
  pose proof (hostBits_nonneg ipnet) as Hhb.
  split.
  - intros phase fuel env a. unfold Scan.run. simpl Scan.ipnet.
    destruct (Scan.hostIPOf ipnet) as [hostIP|]; [|intros []].
    destruct (hostBits ipnet <? 2).
    + rewrite sent_awaitQuit. intros [].
    + intros Hin.
      destruct (sent_scanLoop ipnet hostIP (hostBits ipnet) fuel
                  Hhb _ _ _ Hin) as (v & _ & ->).
      apply Hto.
  - intros rnd phase fuel env a. unfold Probe.run. simpl Probe.ipnet.
    destruct (hostBits ipnet <? 2).
    + rewrite sent_awaitQuit. intros [].
    + intros Hin.
      destruct (sent_probeLoop ipnet (hostBits ipnet) rnd env
                  Hhb _ _ Hin) as (v & _ & ->).
      apply Hto.
Qed.

Lemma mispaired_subnet_sends_nil_witness :
  sent (fst (Scan.run
               {| Scan.ipnet := {| ipnet_IP := ip_fe80_1; ipnet_Mask := mask24 |} |}
               (fun _ => 0) 3%nat [SinkReady; SinkReady]))
  = [None; None].
Proof.
  destruct (mispaired_subnet_sends_nil
              {| ipnet_IP := ip_fe80_1; ipnet_Mask := mask24 |} eq_refl)
    as [Hscan _].
  assert (E : exists a b,
             sent (fst (Scan.run
               {| Scan.ipnet := {| ipnet_IP := ip_fe80_1; ipnet_Mask := mask24 |} |}
               (fun _ => 0) 3%nat [SinkReady; SinkReady])) = [a; b]).
  { vm_compute. eexists. eexists. reflexivity. }
  destruct E as (a & b & E).
  rewrite E.
  rewrite (Hscan (fun _ => 0) 3%nat [SinkReady; SinkReady] a)
    by (rewrite E; left; reflexivity).
  rewrite (Hscan (fun _ => 0) 3%nat [SinkReady; SinkReady] b)
    by (rewrite E; right; left; reflexivity).
  reflexivity.
Defined.

(** ** The schedule of the scan loop on a run *)

Lemma zigzag_step j :
  (if 0 <=? - zigzag j then - zigzag j + 1 else - zigzag j) = zigzag (S j).
Proof.
  destruct (Nat.Even_or_Odd j) as [[k ->] | [k ->]].
  - rewrite zigzag_even, zigzag_odd.
    destruct (Z.leb_spec 0 (- - Z.of_nat k)); lia.
  - rewrite Nat.add_1_r, zigzag_odd.
    replace (S (S (2 * k))) with (2 * S k)%nat by lia.
    rewrite zigzag_even.
    destruct (Z.leb_spec 0 (- (Z.of_nat k + 1))); lia.
Qed.

Lemma forallb_seq_S (f : nat -> bool) r :
  forallb f (seq 0 (S r)) = forallb f (seq 0 r) && f r.
Proof.
  rewrite seq_S, forallb_app. cbn [forallb Nat.add].
  rewrite andb_true_r. reflexivity.
Qed.

(** The downward direction is enabled up to the pass that tries the
    segment [0]. *)
Lemma down_enabled hostIP r :
  0 <= hostIP ->
  forallb (fun k => 0 <? hostIP + zigzag k) (seq 0 r)
  = (Z.of_nat r <=? 2 * hostIP).
Proof.
  intros Hh. induction r as [|r IH].
  - cbn [seq forallb]. symmetry. apply Z.leb_le. lia.
  - rewrite forallb_seq_S, IH.
    destruct (Nat.Even_or_Odd r) as [[k ->] | [k ->]].
    + rewrite zigzag_even.
      destruct (Z.leb_spec (Z.of_nat (2 * k)) (2 * hostIP));
        destruct (Z.ltb_spec 0 (hostIP + - Z.of_nat k));
        destruct (Z.leb_spec (Z.of_nat (S (2 * k))) (2 * hostIP));
        try reflexivity; lia.
    + rewrite Nat.add_1_r, zigzag_odd.
      destruct (Z.leb_spec (Z.of_nat (S (2 * k))) (2 * hostIP));
        destruct (Z.ltb_spec 0 (hostIP + (Z.of_nat k + 1)));
        destruct (Z.leb_spec (Z.of_nat (S (S (2 * k)))) (2 * hostIP));
        try reflexivity; lia.
Qed.

(** The upward direction is enabled up to the pass that tries the
    segment [bound]. *)
Lemma up_enabled hostIP bound r :
  hostIP <= bound ->
  forallb (fun k => hostIP + zigzag k <? bound) (seq 0 r)
  = (Z.of_nat r <=? Z.max 0 (2 * (bound - hostIP) - 1)).
Proof.
  intros Hh. induction r as [|r IH].
  - cbn [seq forallb]. symmetry. apply Z.leb_le. lia.
  - rewrite forallb_seq_S, IH.
    destruct (Nat.Even_or_Odd r) as [[k ->] | [k ->]].
    + rewrite zigzag_even.
      destruct (Z.leb_spec (Z.of_nat (2 * k))
                  (Z.max 0 (2 * (bound - hostIP) - 1)));
        destruct (Z.ltb_spec (hostIP + - Z.of_nat k) bound);
        destruct (Z.leb_spec (Z.of_nat (S (2 * k)))
                    (Z.max 0 (2 * (bound - hostIP) - 1)));
        try reflexivity; lia.
    + rewrite Nat.add_1_r, zigzag_odd.
      destruct (Z.leb_spec (Z.of_nat (S (2 * k)))
                  (Z.max 0 (2 * (bound - hostIP) - 1)));
        destruct (Z.ltb_spec (hostIP + (Z.of_nat k + 1)) bound);
        destruct (Z.leb_spec (Z.of_nat (S (S (2 * k))))
                    (Z.max 0 (2 * (bound - hostIP) - 1)));
        try reflexivity; lia.
Qed.

(** Both directions are disabled from the last pass of the round on. *)
Lemma bothDisabled_passState hostIP bound r :
  0 <= hostIP <= bound ->
  bothDisabled (passState hostIP bound r)
  = (roundPasses hostIP bound <=? r)%nat.
Proof.
  intros Hh. unfold bothDisabled, passState, roundPasses.
  cbn [Scan.up Scan.down].
  rewrite up_enabled, down_enabled by lia.
  destruct (Z.leb_spec (Z.of_nat r) (Z.max 0 (2 * (bound - hostIP) - 1)));
    destruct (Z.leb_spec (Z.of_nat r) (2 * hostIP));
    destruct (Nat.leb_spec
                (Z.to_nat (Z.max (2 * hostIP + 1) (2 * (bound - hostIP)))) r);
    try reflexivity; lia.
Qed.

Lemma mod_succ_cases P j :
  (0 < P)%nat ->
  (S (j mod P) = P /\ S j mod P = 0)%nat \/
  (S (j mod P) < P /\ S j mod P = S (j mod P))%nat.
Proof.
  intros HP.
  pose proof (Nat.mod_upper_bound j P ltac:(lia)) as Hlt.
  pose proof (Nat.div_mod_eq j P) as Ej.
  destruct (Nat.eq_dec (S (j mod P)) P) as [E | N].
  - left. split; [exact E|].
    symmetry. apply (Nat.mod_unique _ _ (S (j / P))); [lia|]. nia.
  - right. split; [lia|].
    symmetry. apply (Nat.mod_unique _ _ (j / P)); [lia|]. nia.
Qed.

Section Schedule.

Variables hostIP hb : Z.
Hypothesis Hhb : 2 <= hb <= 63.
Hypothesis HhostIP : 0 <= hostIP <= 2 ^ hb - 1.
Hypothesis Hdouble : 2 * hostIP <= Int64.max_int.

Let bound : Z := 2 ^ hb - 1.
Let P : nat := roundPasses hostIP bound.

Lemma roundPasses_pos : (0 < P)%nat.
Proof. unfold P, roundPasses. clear Hhb Hdouble. lia. Qed.

(** A pass of a round that is not over: the candidate is
    [hostIP + zigzag r], sent when it lies in the host range. *)
Lemma pass_step r :
  (r < P)%nat ->
  Scan.scanBody hostIP hb (passState hostIP bound r)
  = (passState hostIP bound (S r),
     if inHostRange bound (hostIP + zigzag r)
     then Some (hostIP + zigzag r) else None).
Proof.
  intros Hr.
  assert (Hb : 3 <= bound <= Int64.max_int).
  { unfold bound, Int64.max_int.
    assert (2 ^ 2 <= 2 ^ hb) by (apply Z.pow_le_mono_r; lia).
    assert (2 ^ hb <= 2 ^ 63) by (apply Z.pow_le_mono_r; lia).
    lia. }
  assert (Hen : bothDisabled (passState hostIP bound r) = false).
  { rewrite bothDisabled_passState by (unfold bound; lia).
    apply Nat.leb_gt. exact Hr. }
  pose proof (zigzag_bound r) as Hz.
  assert (HP : Z.of_nat r < Z.max (2 * hostIP + 1) (2 * (bound - hostIP))).
  { unfold P, roundPasses in Hr. lia. }
  pose proof (scanBody_exact hostIP hb (passState hostIP bound r)) as E.
  cbv zeta in E. rewrite Hen in E. cbn [passState Scan.offset] in E.
  unfold Int64.max_int in *.
  rewrite E by (unfold Int64.in_range, Int64.min_int, Int64.max_int; lia).
  clear E. rewrite zigzag_step, upperBound_small by lia. fold bound.
  unfold passState. cbn [Scan.up Scan.down Scan.offset].
  rewrite !forallb_seq_S. unfold inHostRange.
  destruct (Z.leb_spec (hostIP + zigzag r) 0);
    [|destruct (Z.leb_spec bound (hostIP + zigzag r))];
    destruct (Z.ltb_spec 0 (hostIP + zigzag r));
    destruct (Z.ltb_spec (hostIP + zigzag r) bound); try lia;
    rewrite ?andb_true_r, ?andb_false_r; reflexivity.
Qed.

(** A pass from the variables [r] passes after a reset, the pass after
    the last one of a round included. *)
Lemma pass_step_round r :
  (r <= P)%nat ->
  Scan.scanBody hostIP hb (passState hostIP bound r)
  = (passState hostIP bound (S (r mod P)),
     if inHostRange bound (hostIP + zigzag (r mod P))
     then Some (hostIP + zigzag (r mod P)) else None).
Proof.
  intros Hr. pose proof roundPasses_pos as HP.
  destruct (Nat.eq_dec r P) as [-> | N].
  - rewrite Nat.Div0.mod_same.
    rewrite scanBody_reset
      by (rewrite bothDisabled_passState by (unfold bound; lia);
          apply Nat.leb_refl).
    apply (pass_step 0 HP).
  - rewrite Nat.mod_small by lia. apply pass_step. lia.
Qed.

(** The passes of a run: pass [i] comes up with the candidate
    [passCandidate i] when it lies in the host range, and leaves the
    variables of [passesSinceReset] passes after a reset. *)
Lemma scanCandidates_schedule j :
  scanCandidates hostIP hb j Scan.scanInit
  = (filter (inHostRange bound) (map (passCandidate hostIP bound) (seq 0 j)),
     passState hostIP bound (passesSinceReset P j)).
Proof.
  pose proof roundPasses_pos as HP.
  induction j as [|j IH]; [reflexivity|].
  replace (S j) with (j + 1)%nat at 1 by lia.
  rewrite scanCandidates_app, IH. cbn [fst snd scanCandidates].
  assert (Hr : (passesSinceReset P j <= P)%nat).
  { destruct j as [|j]; cbn [passesSinceReset]; [lia|].
    pose proof (Nat.mod_upper_bound j P ltac:(lia)). lia. }
  assert (Em : (passesSinceReset P j mod P = j mod P)%nat).
  { destruct j as [|j]; cbn [passesSinceReset]; [reflexivity|].
    destruct (mod_succ_cases P j HP) as [[E1 E2] | [E1 E2]]; rewrite E2.
    - rewrite E1. apply Nat.Div0.mod_same.
    - apply Nat.mod_small. exact E1. }
  rewrite (pass_step_round _ Hr), Em.
  rewrite seq_S, map_app, filter_app. cbn [Nat.add map filter passesSinceReset].
  unfold passCandidate at 3. fold P.
  destruct (inHostRange bound (hostIP + zigzag (j mod P))); reflexivity.
Qed.

End Schedule.

Lemma length_filter_le (A : Type) (f : A -> bool) l :
  (length (filter f l) <= length l)%nat.
Proof.
  induction l as [|a l IH]; simpl; [lia|].
  destruct (f a); simpl; lia.
Qed.

Lemma hostIPOf_some ipnet hostIP :
  Scan.hostIPOf ipnet = Some hostIP ->
  0 <= hostIP <= 2 ^ hostBits ipnet - 1 /\ hostIP <= 128 * hostBits ipnet.
Proof.
  intros Eh. pose proof (hostBits_nonneg ipnet) as Hn.
  destruct (Z_le_gt_dec (hostBits ipnet)
              (8 * Z.of_nat (length (ipnet_IP ipnet)))) as [Hfit | Hshort].
  - destruct (hostIPOf_bounds ipnet Hfit) as (h & Eh' & H1 & H2).
    rewrite Eh in Eh'. injection Eh' as ->. split; assumption.
  - unfold Scan.hostIPOf in Eh.
    rewrite hostIPLoop_short in Eh by lia. discriminate.
Qed.

(** C5: the schedule of the scan loop.  The loop starts with both
    directions enabled and offset [0]; a pass takes [hostIP + offset] as
    its candidate, then negates [offset] and adds one when the result is
    not negative; a candidate at or below [0] disables the downward
    direction and is skipped; a candidate at or above [2^hostBits - 1]
    disables the upward direction and is skipped; what a pass sends, if
    anything, is its candidate; with both directions disabled, the pass
    and the loop go on as from the initial variables.  On a run of the
    scanner over a subnet of two to 63 host bits, [hostIP] being the
    origin the run computes: pass [i] of the run has the candidate
    [hostIP + zigzag (i mod P)], that is the offsets [0, +1, -1, +2, -2,
    ...] of a round of [P] passes, over and over; the run sends the
    addresses of the candidates strictly between [0] and
    [2^hostBits - 1], in the order of the passes, and of no other; after
    [j] passes the loop goes on from the variables [passState] records,
    a direction being disabled once a candidate left the host range on
    its side; both directions are disabled after the last pass of a
    round and not before; and the loop has not ended after any number of
    passes. *)
Theorem scan_zigzag_schedule (hostIP hb : Z) :
  2 <= hb ->
  Scan.scanInit = {| Scan.up := true; Scan.down := true; Scan.offset := 0 |} /\
  (forall st,
      let st0 := if bothDisabled st then Scan.scanInit else st in
      let candidate := hostIP + Scan.offset st0 in
      let st' := fst (Scan.scanBody hostIP hb st) in
      let sending := snd (Scan.scanBody hostIP hb st) in
      Int64.in_range candidate ->
      Int64.in_range (- Scan.offset st0) ->
      Int64.in_range (1 - Scan.offset st0) ->
      Scan.offset st'
      = (if 0 <=? - Scan.offset st0
         then - Scan.offset st0 + 1 else - Scan.offset st0) /\
      (candidate <= 0 ->
       Scan.down st' = false /\ Scan.up st' = Scan.up st0 /\ sending = None) /\
      (2 ^ hb - 1 <= candidate ->
       Scan.up st' = false /\ Scan.down st' = Scan.down st0 /\ sending = None) /\
      (0 < candidate < 2 ^ hb - 1 -> hb <= 63 ->
       Scan.up st' = Scan.up st0 /\ Scan.down st' = Scan.down st0 /\
       sending = Some candidate) /\
      (forall v, sending = Some v -> v = candidate)) /\
  (forall j,
      Z.of_nat j < 2 ^ 62 ->
      (forall i, (i < j)%nat ->
         bothDisabled (scanPasses hostIP hb i Scan.scanInit) = false) ->
      Scan.offset (scanPasses hostIP hb j Scan.scanInit) = zigzag j) /\
  (forall st ipnet fuel env,
      bothDisabled st = true ->
      Scan.scanBody hostIP hb st = Scan.scanBody hostIP hb Scan.scanInit /\
      Scan.scanLoop ipnet hostIP hb fuel st env
      = Scan.scanLoop ipnet hostIP hb fuel Scan.scanInit env) /\
  (forall k, zigzag (2 * k) = - Z.of_nat k /\
             zigzag (S (2 * k)) = Z.of_nat k + 1) /\
  (forall ipnet,
      hostBits ipnet = hb ->
      hb <= 63 ->
      Scan.hostIPOf ipnet = Some hostIP ->
      let bound := 2 ^ hb - 1 in
      let P := roundPasses hostIP bound in
      (0 < P)%nat /\
      (forall r, (r <= P)%nat ->
         (bothDisabled (passState hostIP bound r) = true <-> r = P)) /\
      (forall phase j fuel env,
          let sending :=
            filter (inHostRange bound)
                   (map (passCandidate hostIP bound) (seq 0 j)) in
          let st := passState hostIP bound (passesSinceReset P j) in
          Scan.run {| Scan.ipnet := ipnet |} phase (j + fuel)%nat
            (repeat SinkReady (length sending) ++ env)
          = (map EvSend (map (toAddress ipnet) sending)
               ++ fst (Scan.scanLoop ipnet hostIP hb fuel st env),
             snd (Scan.scanLoop ipnet hostIP hb fuel st env))) /\
      (forall phase j,
          Scan.run {| Scan.ipnet := ipnet |} phase j (repeat SinkReady j)
          = (map EvSend
               (map (toAddress ipnet)
                  (filter (inHostRange bound)
                     (map (passCandidate hostIP bound) (seq 0 j)))),
             Running))).
Proof.
  intros Hhb. split; [reflexivity|]. split; [|split; [|split; [|split]]].
  - intros st st0 candidate st' sending H1 H2 H3.
    subst st' sending.
    rewrite (scanBody_exact hostIP hb st H1 H2 H3).
    fold st0. fold candidate. cbv zeta.
    assert (Hub : 2 ^ hb - 1 <= candidate -> Scan.upperBound hb <= candidate).
    { intros Hc. destruct (Z_le_gt_dec hb 63).
      - rewrite upperBound_small by lia. exact Hc.
      - rewrite upperBound_large by lia.
        assert (2 ^ 64 <= 2 ^ hb) by (apply Z.pow_le_mono_r; lia).
        unfold Int64.in_range, Int64.min_int, Int64.max_int in H1. lia. }
    assert (Hpos : 0 < 2 ^ hb - 1).
    { assert (2 ^ 2 <= 2 ^ hb) by (apply Z.pow_le_mono_r; lia). lia. }
    assert (Hin : 0 < candidate < 2 ^ hb - 1 -> hb <= 63 ->
                  candidate < Scan.upperBound hb).
    { intros Hc Hs. rewrite upperBound_small by lia. lia. }
    destruct (Z.leb_spec candidate 0) as [Hle | Hgt];
      [|destruct (Z.leb_spec (Scan.upperBound hb) candidate) as [Hge | Hlt]];
      simpl; repeat split; try reflexivity; try lia; try discriminate;
      intros; try lia; try congruence;
      try (specialize (Hin ltac:(assumption) ltac:(assumption)); lia).
  - apply scanPasses_offset.
  - intros st ipnet fuel env H. split.
    + apply scanBody_reset; assumption.
    + apply scanLoop_reset; assumption.
  - intros k. split; [apply zigzag_even | apply zigzag_odd].
  - intros ipnet Ehb Hhb63 Eh bound P.
    destruct (hostIPOf_some ipnet hostIP Eh) as [Hh1 Hh2].
    rewrite Ehb in Hh1, Hh2.
    assert (Hhb' : 2 <= hb <= 63) by lia.
    assert (Hd : 2 * hostIP <= Int64.max_int) by (unfold Int64.max_int; lia).
    pose proof (roundPasses_pos hostIP hb Hh1) as HP.
    fold bound in HP. fold P in HP.
    assert (Hrun : forall phase j fuel env,
      Scan.run {| Scan.ipnet := ipnet |} phase (j + fuel)%nat
        (repeat SinkReady
           (length (filter (inHostRange bound)
                      (map (passCandidate hostIP bound) (seq 0 j)))) ++ env)
      = (map EvSend
           (map (toAddress ipnet)
              (filter (inHostRange bound)
                 (map (passCandidate hostIP bound) (seq 0 j))))
           ++ fst (Scan.scanLoop ipnet hostIP hb fuel
                     (passState hostIP bound (passesSinceReset P j)) env),
         snd (Scan.scanLoop ipnet hostIP hb fuel
                (passState hostIP bound (passesSinceReset P j)) env))).
    { intros phase j fuel env. unfold Scan.run. cbn [Scan.ipnet].
      rewrite Eh, Ehb.
      destruct (Z.ltb_spec hb 2); [lia|].
      apply scanLoop_sends.
      apply (scanCandidates_schedule hostIP hb Hhb' Hh1 Hd). }
    split; [exact HP|]. split; [|split].
    + intros r Hr.
      rewrite bothDisabled_passState by (unfold bound; lia). fold P.
      rewrite Nat.leb_le. lia.
    + exact Hrun.
    + intros phase j.
      set (sending := filter (inHostRange bound)
                        (map (passCandidate hostIP bound) (seq 0 j))).
      assert (Hlen : (length sending <= j)%nat).
      { unfold sending.
        etransitivity; [apply length_filter_le|].
        rewrite length_map, length_seq. lia. }
      replace j with (length sending + (j - length sending))%nat at 2 by lia.
      rewrite repeat_app.
      replace j with (j + 0)%nat at 1 by lia.
      rewrite Hrun. cbn [Scan.scanLoop fst snd]. rewrite app_nil_r.
      reflexivity.
Qed.

Lemma scan_zigzag_schedule_witness :
  2 <= 8 /\
  Scan.run {| Scan.ipnet := net24 |} (fun _ => 0) 5%nat (repeat SinkReady 5)
  = (map EvSend (map (toAddress net24) [100; 101; 99; 102; 98]), Running).
Proof.
  split; [lia|].
  destruct (scan_zigzag_schedule 100 8 ltac:(lia)) as (_ & _ & _ & _ & _ & H).
  destruct (H net24 eq_refl ltac:(lia) eq_refl) as (_ & _ & _ & Hrun).
  rewrite (Hrun (fun _ => 0) 5%nat). reflexivity.
Defined.
